(** * A shallow embedding of the SlimSearch (minisearch) search index

    The inverted index of [SearchIndex] ([src/unnamed/part_000]), the
    posting updates [addTerm] and [removeTerm] ([src/unnamed/part_001],
    identical in behaviour to [src/src/term.ts]), the final stage of
    [search], the constructor, [dirtFactor] and [toJSON].

    Numbers: ids (short ids, field ids) are the non-negative integers the
    code allocates, modelled as [nat]; term frequencies are the positive
    counts the code maintains ([nat]); counters are [Z]; scores and field
    lengths are modelled as exact rationals [Q]. *)

From Stdlib Require Import QArith Lqa Lia Permutation Sorting.Sorted.
From stdpp Require Import base gmap strings list fin_maps.

(* ------------------------------------------------------------------ *)
(** ** Data model *)

(** A posting list of one (term, field): [Map<shortId, frequency>].
    The maps are modelled by their contents: the insertion order in which
    a JavaScript [Map] iterates is not kept, so the properties below are
    stated about postings and lookups, not about iteration order. *)
Abbreviation DocumentTermFrequencies := (gmap nat nat).

(** [FieldTermData = Map<number, DocumentTermFrequencies>]. *)
Abbreviation FieldTermData := (gmap nat DocumentTermFrequencies).

(** Modelled from the spec: [SearchableMap] (the RadixMap of
    [./SearchableMap/index.js], not in src) is an associative map from
    string keys to values with [has], [get], [set], [delete] and
    [fetch]; the radix-tree shape is not observable through these
    operations, so it is a finite map here. *)
Abbreviation SearchableMap V := (gmap string V).

(** [SearchableMap.fetch(key, factory)]: the value at [key], or
    [factory()] installed at [key]. Returns the value and the new map. *)
Definition fetch {V} (m : SearchableMap V) (key : string) (factory : V)
  : V * SearchableMap V :=
  match m !! key with
  | Some v => (v, m)
  | None => (factory, <[key := factory]> m)
  end.

(** [createMap = () => new Map()]. *)
Definition createMap : FieldTermData := ∅.

(** Modelled from the spec: [warnDocumentChanged] of [./warning.js] (not
    in src) reports a DocumentChanged warning through
    [logger("warn", message, "version_conflict")]; the message names the
    document, the field and the term. *)
Record Warning := DocumentChanged {
  w_level : string;
  w_code : string;
  w_documentId : nat;
  w_fieldId : nat;
  w_term : string
}.

Definition warnDocumentChanged (documentId fieldId : nat) (term : string)
  : Warning :=
  DocumentChanged "warn" "version_conflict" documentId fieldId term.

(* ------------------------------------------------------------------ *)
(** ** [addTerm] and [removeTerm] (part_001 lines 230-289)

    Both functions only touch [searchIndex._index]; they take it and
    return its new value. [removeTerm] also returns the warnings it sent
    to the logger, in order. The maps are mutated in place in the source;
    the value stored under [term] is the mutated map. *)

Definition addTerm (index : SearchableMap FieldTermData)
    (fieldId documentId : nat) (term : string) : SearchableMap FieldTermData :=
  let '(indexData, index) := fetch index term createMap in
  match indexData !! fieldId with
  | None =>
      let fieldIndex : DocumentTermFrequencies := <[documentId := 1]> ∅ in
      <[term := <[fieldId := fieldIndex]> indexData]> index
  | Some fieldIndex =>
      let docs := fieldIndex !! documentId in
      (* (docs ?? 0) + 1 *)
      <[term := <[fieldId := <[documentId := default 0 docs + 1]> fieldIndex]>
                  indexData]> index
  end.

Definition removeTerm (index : SearchableMap FieldTermData)
    (fieldId documentId : nat) (term : string)
  : SearchableMap FieldTermData * list Warning :=
  if decide (index !! term = None) then
    (index, [warnDocumentChanged documentId fieldId term])
  else
    let '(indexData, index) := fetch index term createMap in
    let fieldIndex := indexData !! fieldId in
    let amount := fieldIndex ≫= (.!! documentId) in
    let '(indexData', warnings) :=
      match fieldIndex, amount with
      | Some fieldIndex, Some amount =>
          if decide (amount <= 1) then
            if decide (size fieldIndex <= 1) then
              (delete fieldId indexData, [])
            else (<[fieldId := delete documentId fieldIndex]> indexData, [])
          else (<[fieldId := <[documentId := amount - 1]> fieldIndex]> indexData, [])
      | _, _ => (indexData, [warnDocumentChanged documentId fieldId term])
      end in
    let index := <[term := indexData']> index in
    (* if (searchIndex._index.get(term)!.size === 0) delete term *)
    if decide (size indexData' = 0) then (delete term index, warnings)
    else (index, warnings).

(** The earlier copy of the two functions in [src/src/term.ts]
    (lines 8-53). It differs from part_001 in two places: [addTerm]
    computes [(docs || 0) + 1] instead of [(docs ?? 0) + 1], and
    [removeTerm] tests [fieldIndex.get(documentId) == null] and reads
    the frequency again with [fieldIndex.get(documentId)!]. *)
Module TermTs.

(** [x || 0] on a number read from a map: [undefined] and [0] are
    falsy and give [0]. *)
Definition orZero (x : option nat) : nat :=
  match x with
  | Some n => if decide (n = 0) then 0 else n
  | None => 0
  end.

Definition addTerm (index : SearchableMap FieldTermData)
    (fieldId documentId : nat) (term : string) : SearchableMap FieldTermData :=
  let '(indexData, index) := fetch index term createMap in
  match indexData !! fieldId with
  | None =>
      let fieldIndex : DocumentTermFrequencies := <[documentId := 1]> ∅ in
      <[term := <[fieldId := fieldIndex]> indexData]> index
  | Some fieldIndex =>
      let docs := fieldIndex !! documentId in
      <[term := <[fieldId := <[documentId := orZero docs + 1]> fieldIndex]>
                  indexData]> index
  end.

Definition removeTerm (index : SearchableMap FieldTermData)
    (fieldId documentId : nat) (term : string)
  : SearchableMap FieldTermData * list Warning :=
  if decide (index !! term = None) then
    (index, [warnDocumentChanged documentId fieldId term])
  else
    let '(indexData, index) := fetch index term createMap in
    let '(indexData', warnings) :=
      match indexData !! fieldId with
      | None => (indexData, [warnDocumentChanged documentId fieldId term])
      | Some fieldIndex =>
          match fieldIndex !! documentId with
          | None => (indexData, [warnDocumentChanged documentId fieldId term])
          | Some _ =>
              (* fieldIndex.get(documentId)! *)
              let amount := default 0 (fieldIndex !! documentId) in
              if decide (amount <= 1) then
                if decide (size fieldIndex <= 1) then (delete fieldId indexData, [])
                else (<[fieldId := delete documentId fieldIndex]> indexData, [])
              else (<[fieldId := <[documentId := amount - 1]> fieldIndex]> indexData, [])
          end
      end in
    let index := <[term := indexData']> index in
    if decide (size indexData' = 0) then (delete term index, warnings)
    else (index, warnings).

End TermTs.

(** The frequency recorded for (term, field, document), [0] when absent:
    the posting structure as a function. *)
Definition posting (index : SearchableMap FieldTermData)
    (term : string) (fieldId documentId : nat) : option nat :=
  (index !! term ≫= λ indexData : FieldTermData, indexData !! fieldId)
    ≫= λ fieldIndex : DocumentTermFrequencies, fieldIndex !! documentId.

Definition cnt (index : SearchableMap FieldTermData)
    (term : string) (fieldId documentId : nat) : nat :=
  default 0 (posting index term fieldId documentId).

(** The shape the code maintains: no term without fields, no field
    without documents, no zero frequency. *)
Definition wf_fields (indexData : FieldTermData) : Prop :=
  ∀ fieldId fieldIndex, indexData !! fieldId = Some fieldIndex →
    fieldIndex ≠ ∅ ∧
    ∀ documentId n, fieldIndex !! documentId = Some n → 0 < n.

Definition wf_index (index : SearchableMap FieldTermData) : Prop :=
  ∀ term indexData, index !! term = Some indexData →
    indexData ≠ ∅ ∧ wf_fields indexData.

(** A sequence of posting operations. *)
Inductive TermOp :=
  | AddTerm (fieldId documentId : nat) (term : string)
  | RemoveTerm (fieldId documentId : nat) (term : string).

Definition applyTermOp (index : SearchableMap FieldTermData) (op : TermOp)
  : SearchableMap FieldTermData :=
  match op with
  | AddTerm f d t => addTerm index f d t
  | RemoveTerm f d t => fst (removeTerm index f d t)
  end.

Definition runTermOps (index : SearchableMap FieldTermData) (ops : list TermOp)
  : SearchableMap FieldTermData :=
  foldl applyTermOp index ops.

(** Adding the (field, term) occurrences of one document, then removing
    them again in the same order, as [add] and [remove] do. *)
Definition addTerms (index : SearchableMap FieldTermData) (documentId : nat)
    (occ : list (nat * string)) : SearchableMap FieldTermData :=
  foldl (λ idx '(f, t), addTerm idx f documentId t) index occ.

Definition removeTerms (index : SearchableMap FieldTermData) (documentId : nat)
    (occ : list (nat * string)) : SearchableMap FieldTermData :=
  foldl (λ idx '(f, t), fst (removeTerm idx f documentId t)) index occ.

(* ------------------------------------------------------------------ *)
(** ** Values, options and the index state *)

(** The JavaScript values that appear in search results and stored
    fields: a document id (of the index's [ID] type), [undefined], a
    number, a string, a boolean, a string array and a [MatchInfo]
    object (term to field names, in insertion order). *)
Inductive jsval (ID : Type) :=
  | JId (i : ID)
  | JUndefined
  | JNum (q : Q)
  | JStr (s : string)
  | JBool (b : bool)
  | JStrs (l : list string)
  | JMatch (m : list (string * list string)).
Arguments JId {ID} i.
Arguments JUndefined {ID}.
Arguments JNum {ID} q.
Arguments JStr {ID} s.
Arguments JBool {ID} b.
Arguments JStrs {ID} l.
Arguments JMatch {ID} m.

(** A plain JavaScript object: string keys to values. Search results and
    stored-field records are such objects. *)
Abbreviation JSObject ID := (gmap string (jsval ID)).

(** [BM25Params] of typings.ts. *)
Record BM25Params := { k : Q; b : Q; d : Q }.

(** [SearchOptions] of typings.ts, reduced to the members the modelled
    code reads: [fields], [filter] and [bm25]; [None] is an absent
    member. *)
Record SearchOptions (ID : Type) := {
  so_fields : option (list string);
  so_filter : option (JSObject ID → bool);
  so_bm25 : option BM25Params
}.
Arguments so_fields {ID} s.
Arguments so_filter {ID} s.
Arguments so_bm25 {ID} s.

(** [SearchIndexOptions] of typings.ts, reduced to [fields], [idField],
    [storeFields] and [searchOptions]. *)
Record SearchIndexOptions (ID : Type) := {
  opt_fields : option (list string);
  opt_idField : option string;
  opt_storeFields : option (list string);
  opt_searchOptions : option (SearchOptions ID)
}.
Arguments opt_fields {ID} s.
Arguments opt_idField {ID} s.
Arguments opt_storeFields {ID} s.
Arguments opt_searchOptions {ID} s.

(** [OptionsWithDefaults] (part_000 lines 23-51), same members. *)
Record OptionsWithDefaults (ID : Type) := {
  fields : list string;
  idField : string;
  storeFields : list string;
  searchOptions : SearchOptions ID
}.
Arguments fields {ID} _.
Arguments idField {ID} _.
Arguments storeFields {ID} _.
Arguments searchOptions {ID} _.

(** Modelled from the spec and the documentation in typings.ts:
    [defaultBM25params] of [./defaults.js] (not in src): [k = 1.2],
    [b = 0.7], [d = 0.5]. *)
Definition defaultBM25params : BM25Params :=
  {| k := 6 # 5; b := 7 # 10; d := 1 # 2 |}.

(** Modelled from the spec: [defaultSearchOptions] of [./defaults.js]
    (not in src) has no filter and no restriction on fields, and the
    default BM25 parameters. *)
Definition defaultSearchOptions {ID} : SearchOptions ID :=
  {| so_fields := None; so_filter := None; so_bm25 := Some defaultBM25params |}.

(** Modelled from the spec: the members of [defaultOptions] of
    [./defaults.js] (not in src) used here: [idField = "id"], no stored
    fields. *)
Definition defaultIdField : string := "id".
Definition defaultStoreFields : list string := [].

(** [{ ...defaults, ...given }] on one member: a member present in the
    given object overrides the default. *)
Definition spread {A} (dflt : A) (given : option A) : A := default dflt given.

(** [{ ...defaultSearchOptions, ...options.searchOptions }]. *)
Definition mergeSearchOptions {ID} (dflt : SearchOptions ID)
    (given : option (SearchOptions ID)) : SearchOptions ID :=
  match given with
  | None => dflt
  | Some g =>
      {| so_fields := match so_fields g with Some x => Some x | None => so_fields dflt end;
         so_filter := match so_filter g with Some x => Some x | None => so_filter dflt end;
         so_bm25 := match so_bm25 g with Some x => Some x | None => so_bm25 dflt end |}
  end.

(** The state of a [SearchIndex] (part_000 lines 113-173). The vacuum
    bookkeeping members ([_currentVacuum], [_enqueuedVacuum],
    [_enqueuedVacuumConditions]) are not modelled. Maps keyed by short id
    are [gmap nat]; [_idToShortId] is keyed by the document ids. *)
Record SearchIndex (ID : Type) `{Countable ID} := {
  _options : OptionsWithDefaults ID;
  _index : SearchableMap FieldTermData;
  _documentCount : Z;
  _documentIds : gmap nat ID;
  _idToShortId : gmap ID nat;
  _fieldIds : gmap string nat;
  _fieldLength : gmap nat (list Q);
  _avgFieldLength : list Q;
  _nextId : Z;
  _storedFields : gmap nat (JSObject ID);
  _dirtCount : Z
}.
Arguments _options {ID _ _} s.
Arguments _index {ID _ _} s.
Arguments _documentCount {ID _ _} s.
Arguments _documentIds {ID _ _} s.
Arguments _idToShortId {ID _ _} s.
Arguments _fieldIds {ID _ _} s.
Arguments _fieldLength {ID _ _} s.
Arguments _avgFieldLength {ID _ _} s.
Arguments _nextId {ID _ _} s.
Arguments _storedFields {ID _ _} s.
Arguments _dirtCount {ID _ _} s.

(** The double-quote character, for error messages. *)
Definition dquote : string := String (Ascii.ascii_of_nat 34) EmptyString.

Definition errFieldsMissing : string :=
  "SlimSearch: option " ++ dquote ++ "fields" ++ dquote ++ " must be provided".

(** [addFields]: [for (i = 0; i < fields.length; i++) _fieldIds[fields[i]] = i].
    The map stands for the own members of the plain object [_fieldIds];
    an assignment to the name [__proto__] goes to the prototype setter in
    JavaScript and creates no member, which this map does not model. *)
Fixpoint addFieldsFrom (i : nat) (fields : list string) (fieldIds : gmap string nat)
  : gmap string nat :=
  match fields with
  | [] => fieldIds
  | field :: rest => addFieldsFrom (S i) rest (<[field := i]> fieldIds)
  end.

Definition addFields (fields : list string) (fieldIds : gmap string nat)
  : gmap string nat := addFieldsFrom 0 fields fieldIds.

(** [new SearchIndex(options)] (part_000 lines 178-233): either the
    exception it throws (its message) or the new state. [options] may be
    [undefined] ([None]): the guard is [!options?.fields]; an array, even
    an empty one, is truthy. *)
Definition newSearchIndex {ID} `{Countable ID} (options : option (SearchIndexOptions ID))
  : string + SearchIndex ID :=
  match options with
  | None => inl errFieldsMissing
  | Some o =>
      match opt_fields o with
      | None => inl errFieldsMissing
      | Some fs =>
          let opts := {| fields := fs;
                         idField := spread defaultIdField (opt_idField o);
                         storeFields := spread defaultStoreFields (opt_storeFields o);
                         searchOptions := mergeSearchOptions defaultSearchOptions
                                            (opt_searchOptions o) |} in
          inr {| _options := opts;
                 _index := ∅;
                 _documentCount := 0;
                 _documentIds := ∅;
                 _idToShortId := ∅;
                 _fieldIds := addFields (fields opts) ∅;
                 _fieldLength := ∅;
                 _avgFieldLength := [];
                 _nextId := 0;
                 _storedFields := ∅;
                 _dirtCount := 0 |}
      end
  end.

(** [get dirtFactor()] (part_000 lines 256-258). *)
Definition dirtFactor {ID} `{Countable ID} (s : SearchIndex ID) : Q :=
  inject_Z (_dirtCount s) / (1 + inject_Z (_documentCount s) + inject_Z (_dirtCount s)).

(* ------------------------------------------------------------------ *)
(** ** Serialization *)

(** [SerializedIndexEntry = Record<string, number>]: shortId to
    frequency. A JavaScript object built with [Object.fromEntries] from a
    map keyed by numbers has one member per entry, keyed by the
    stringified number; it is modelled as the list of its (key, value)
    entries, with the numeric key. *)
Abbreviation SerializedIndexEntry := (list (nat * nat)).

(** [IndexObject] (typings.ts), the value [toJSON] returns. *)
Record IndexObject (ID : Type) := {
  documentCount : Z;
  nextId : Z;
  documentIds : list (nat * ID);
  fieldIds : gmap string nat;
  fieldLength : list (nat * list Q);
  averageFieldLength : list Q;
  storedFields : list (nat * JSObject ID);
  dirtCount : Z;
  index : list (string * list (nat * SerializedIndexEntry));
  version : Z
}.
Arguments documentCount {ID} _.
Arguments nextId {ID} _.
Arguments documentIds {ID} _.
Arguments fieldIds {ID} _.
Arguments fieldLength {ID} _.
Arguments averageFieldLength {ID} _.
Arguments storedFields {ID} _.
Arguments dirtCount {ID} _.
Arguments index {ID} _.
Arguments version {ID} _.

(** [Object.fromEntries(map)] for a map keyed by numbers. Iterating a
    [gmap] ([map_to_list]) yields every entry once. *)
Definition fromEntries {V} (m : gmap nat V) : list (nat * V) := map_to_list m.

(** The inner loop of [toJSON]:
    [for ([fieldId, frequencies] of fieldIndex) data[fieldId] = Object.fromEntries(frequencies)]. *)
Definition serializeFieldIndex (fieldIndex : FieldTermData)
  : list (nat * SerializedIndexEntry) :=
  (λ '(fieldId, frequencies), (fieldId, fromEntries frequencies)) <$> map_to_list fieldIndex.

(** [toJSON()] (part_000 lines 298-322). The outer loop pushes one
    [[term, data]] pair per entry of [_index], in the iteration order of
    the SearchableMap. *)
Definition toJSON {ID} `{Countable ID} (s : SearchIndex ID) : IndexObject ID :=
  let index := (λ '(term, fieldIndex), (term, serializeFieldIndex fieldIndex))
                 <$> map_to_list (_index s) in
  {| documentCount := _documentCount s;
     nextId := _nextId s;
     documentIds := fromEntries (_documentIds s);
     fieldIds := _fieldIds s;
     fieldLength := fromEntries (_fieldLength s);
     averageFieldLength := _avgFieldLength s;
     storedFields := fromEntries (_storedFields s);
     dirtCount := _dirtCount s;
     index := index;
     version := 2 |}.

(** Modelled from the spec: the message of the IncompatibleVersion
    error of [loadJSON]. *)
Definition errIncompatibleVersion : string :=
  "SlimSearch: cannot deserialize an index created with an incompatible version".

Definition loadIndexEntries (entries : list (string * list (nat * SerializedIndexEntry)))
  : SearchableMap FieldTermData :=
  list_to_map ((λ '(term, data),
     (term, list_to_map ((λ '(fieldId, entry), (fieldId, list_to_map entry)) <$> data)))
     <$> entries).

(** Modelled from the spec: [loadJSON] of [./loadJSON.js] (not in src).
    It builds a new index with the given options (the constructor's
    checks apply), then installs the serialized state: [documentIds]
    (and [_idToShortId] as its inverse, the later entry winning),
    [fieldIds], [fieldLength], [averageFieldLength], [storedFields],
    [documentCount], [nextId], the postings of [index], and [dirtCount];
    version 1 is loaded with the dirt counter set to 0, any other
    version than 1 or 2 fails with IncompatibleVersion. *)
Definition loadJSON {ID} `{Countable ID} (js : IndexObject ID)
    (options : option (SearchIndexOptions ID)) : string + SearchIndex ID :=
  if decide (version js = 1%Z ∨ version js = 2%Z) then
    match newSearchIndex options with
    | inl e => inl e
    | inr s =>
        inr {| _options := _options s;
               _index := loadIndexEntries (index js);
               _documentCount := documentCount js;
               _documentIds := list_to_map (documentIds js);
               _idToShortId :=
                 list_to_map (reverse ((λ '(shortId, id), (id, shortId)) <$> documentIds js));
               _fieldIds := fieldIds js;
               _fieldLength := list_to_map (fieldLength js);
               _avgFieldLength := averageFieldLength js;
               _nextId := nextId js;
               _storedFields := list_to_map (storedFields js);
               _dirtCount := if decide (version js = 1%Z) then 0%Z else dirtCount js |}
    end
  else inl errIncompatibleVersion.

(* ------------------------------------------------------------------ *)
(** ** [search] (part_001 lines 188-221) *)

(** Modelled from the spec: one entry of the combined results of
    [executeQuery] ([./results.js], not in src): the document's
    accumulated score, the query terms it matched (each once), and its
    match information (matched dictionary term to field names). The
    combined results are a [Map<shortId, ...>], iterated in insertion
    order: a list of (shortId, entry) pairs. *)
Record QueryResult := {
  score : Q;
  terms : list string;
  match_ : list (string * list string)
}.

(** The result object built in the loop of [search], before the filter:
    [{ id, score: score * quality, terms: Object.keys(match), match }],
    then [Object.assign(result, searchIndex._storedFields.get(docId))]:
    the stored fields are copied over it, a stored member overwriting the
    member of the same name. [Object.assign] assigns with [[Set]], so a
    stored own member named [__proto__] would set the prototype instead
    of being copied; the union below copies it as a plain member. *)
Definition makeResult {ID} `{Countable ID} (searchIndex : SearchIndex ID)
    (docId : nat) (qr : QueryResult) : JSObject ID :=
  let quality := length (terms qr) in
  let result : JSObject ID :=
    <["id" := match _documentIds searchIndex !! docId with
              | Some i => JId i
              | None => JUndefined
              end]>
    (<["score" := JNum (score qr * inject_Z (Z.of_nat quality))%Q]>
    (<["terms" := JStrs (fst <$> match_ qr)]>
    (<["match" := JMatch (match_ qr)]> ∅))) in
  match _storedFields searchIndex !! docId with
  | Some stored => stored ∪ result
  | None => result
  end.

(** The [score] member of a result object, when it is a number. *)
Definition scoreOf {ID} (result : JSObject ID) : option Q :=
  match result !! "score" with
  | Some (JNum q) => Some q
  | _ => None
  end.

(** Modelled from the spec: [byScore] of [./utils.js] (not in src) sorts
    by descending score, [(a, b) => b.score - a.score]; [None] stands for
    NaN, the difference when a score is not a number. Its arguments are
    the result objects, which carry the document id but not the short
    id. *)
Definition byScore {ID} (a b : JSObject ID) : option Q :=
  match scoreOf a, scoreOf b with
  | Some x, Some y => Some (y - x)%Q
  | _, _ => None
  end.

(** Whether the score of a result is a number equal to [q]. *)
Definition hasScore {ID} (q : Q) (result : JSObject ID) : bool :=
  match scoreOf result with
  | Some x => Qeq_bool x q
  | None => false
  end.

(** [Array.prototype.sort(compare)]: a stable sort, which places [b]
    before an earlier [a] only when [compare(a, b) > 0] (NaN counts as
    not greater). For a consistent comparator every stable sort gives
    this result; insertion sort is used. *)
Definition comparesGreater (c : option Q) : bool :=
  match c with
  | Some q => negb (Qle_bool q 0)
  | None => false
  end.

Fixpoint insertSorted {A} (compare : A → A → option Q) (x : A) (l : list A) : list A :=
  match l with
  | [] => [x]
  | y :: l' => if comparesGreater (compare x y) then y :: insertSorted compare x l'
               else x :: l
  end.

Fixpoint sortBy {A} (compare : A → A → option Q) (l : list A) : list A :=
  match l with
  | [] => []
  | x :: l' => insertSorted compare x (sortBy compare l')
  end.

(** One iteration of the loop of [search]: build the result, and push it
    when [searchOptions.filter == null || searchOptions.filter(result)].
    [searchOptions] is the argument of the call. *)
Definition pushResult {ID} `{Countable ID} (searchIndex : SearchIndex ID)
    (searchOptions : SearchOptions ID) (results : list (JSObject ID))
    (entry : nat * QueryResult) : list (JSObject ID) :=
  let '(docId, qr) := entry in
  let result := makeResult searchIndex docId qr in
  match so_filter searchOptions with
  | None => results ++ [result]
  | Some filter => if filter result then results ++ [result] else results
  end.

(** [search] after [executeQuery]: the loop, then [results.sort(byScore)]. *)
Definition searchCombined {ID} `{Countable ID} (searchIndex : SearchIndex ID)
    (combinedResults : list (nat * QueryResult)) (searchOptions : SearchOptions ID)
  : list (JSObject ID) :=
  sortBy byScore (foldl (pushResult searchIndex searchOptions) [] combinedResults).

(** [search(searchIndex, query, searchOptions)]. [executeQuery] is not in
    src; [search] is defined for any function in its place. *)
Definition search {ID} `{Countable ID} {Query : Type}
    (executeQuery : SearchIndex ID → Query → SearchOptions ID → list (nat * QueryResult))
    (searchIndex : SearchIndex ID) (query : Query) (searchOptions : SearchOptions ID)
  : list (JSObject ID) :=
  searchCombined searchIndex (executeQuery searchIndex query searchOptions) searchOptions.

(** The default argument [searchOptions = {}]. *)
Definition emptySearchOptions {ID} : SearchOptions ID :=
  {| so_fields := None; so_filter := None; so_bm25 := None |}.

(** Frequency of (field, document) inside the data of one term. *)
Definition cntF (indexData : FieldTermData) (f d : nat) : nat :=
  match indexData !! f with
  | Some fieldIndex => default 0 (fieldIndex !! d)
  | None => 0
  end.

(** Number of occurrences of (field, term) in a list of a document's
    occurrences. *)
Definition occurrences (occ : list (nat * string)) (f : nat) (t : string) : nat :=
  length (filter (λ p, p = (f, t)) occ).

(** A decision procedure for [wf_index] on concrete dictionaries. *)
Definition wf_index_check (index : SearchableMap FieldTermData) : bool :=
  bool_decide (map_Forall (λ _ (indexData : FieldTermData),
    indexData ≠ ∅ ∧
    map_Forall (λ _ (fieldIndex : DocumentTermFrequencies),
      fieldIndex ≠ ∅ ∧ map_Forall (λ _ n, 0 < n) fieldIndex) indexData) index).

(** A small dictionary used to exercise the theorems: "zen" in field 0
    of document 1 (twice) and in field 1 of documents 1 and 3, "art" in
    field 0 of document 3. *)
Definition sample_index : SearchableMap FieldTermData :=
  {[ "zen" := {[ 0 := {[ 1 := 2 ]}; 1 := {[ 1 := 1; 3 := 1 ]} ]};
     "art" := {[ 0 := {[ 3 := 1 ]} ]} ]}.

(** A filter that rejects every result. *)
Definition rejectAll {ID} (_ : JSObject ID) : bool := false.

(** Construction options with a default filter configured. *)
Definition sample_options : SearchIndexOptions nat :=
  {| opt_fields := Some ["title"; "text"];
     opt_idField := None;
     opt_storeFields := Some ["title"];
     opt_searchOptions := Some {| so_fields := None; so_filter := Some rejectAll;
                                  so_bm25 := None |} |}.

(** A state built with [sample_options], holding [sample_index]:
    documents 11 and 13 under short ids 1 and 3, and one discarded
    document. *)
Definition sample_state : SearchIndex nat :=
  {| _options := {| fields := ["title"; "text"];
                    idField := "id";
                    storeFields := ["title"];
                    searchOptions := {| so_fields := None; so_filter := Some rejectAll;
                                        so_bm25 := Some defaultBM25params |} |};
     _index := sample_index;
     _documentCount := 2;
     _documentIds := {[ 1 := 11; 3 := 13 ]};
     _idToShortId := {[ 11 := 1; 13 := 3 ]};
     _fieldIds := {[ "title" := 0; "text" := 1 ]};
     _fieldLength := {[ 1 := [2; 3]%Q; 3 := [1; 2]%Q ]};
     _avgFieldLength := [3 # 2; 5 # 2];
     _nextId := 4;
     _storedFields := {[ 1 := ({[ "title" := JStr "Zen" ]} : JSObject nat);
                        3 := ({[ "title" := JStr "Art" ]} : JSObject nat) ]};
     _dirtCount := 1 |}.

(** [sample_state] where document 11 also stores a member named
    [score], as [createIndex({ fields, storeFields: ['title', 'score'] })]
    does for a document with such a field. *)
Definition score_stored_state : SearchIndex nat :=
  {| _options := _options sample_state;
     _index := _index sample_state;
     _documentCount := _documentCount sample_state;
     _documentIds := _documentIds sample_state;
     _idToShortId := _idToShortId sample_state;
     _fieldIds := _fieldIds sample_state;
     _fieldLength := _fieldLength sample_state;
     _avgFieldLength := _avgFieldLength sample_state;
     _nextId := _nextId sample_state;
     _storedFields := {[ 1 := ({[ "title" := JStr "Zen"; "score" := JNum 5 ]} : JSObject nat);
                         3 := ({[ "title" := JStr "Art" ]} : JSObject nat) ]};
     _dirtCount := _dirtCount sample_state |}.

(** The state [new SearchIndex(sample_options)] creates. *)
Definition sample_fresh_state : SearchIndex nat :=
  {| _options := _options sample_state; _index := ∅; _documentCount := 0;
     _documentIds := ∅; _idToShortId := ∅;
     _fieldIds := {[ "title" := 0; "text" := 1 ]}; _fieldLength := ∅;
     _avgFieldLength := []; _nextId := 0; _storedFields := ∅; _dirtCount := 0 |}.

(** Combined results for the query "zen art" on [sample_state]. *)
Definition sample_results : list (nat * QueryResult) :=
  [(1, {| score := 2; terms := ["zen"]; match_ := [("zen", ["title"; "text"])] |});
   (3, {| score := 3 # 2; terms := ["zen"; "art"];
          match_ := [("zen", ["text"]); ("art", ["title"])] |})].


(* ------------------------------------------------------------------ *)
(** ** Postings under [addTerm] and [removeTerm] *)

Section Postings.

Implicit Types (index : SearchableMap FieldTermData) (indexData : FieldTermData)
  (fieldIndex : DocumentTermFrequencies).

Lemma posting_lookup index t f d :
  posting index t f d =
    match index !! t with
    | Some indexData =>
        match indexData !! f with
        | Some fieldIndex => fieldIndex !! d
        | None => None
        end
    | None => None
    end.
Proof.
  unfold posting. destruct (index !! t) as [m|]; simpl; [|done].
  by destruct (m !! f).
Qed.

(** Deleting the last document of a field leaves no document there. *)
Lemma size_le_1_delete fieldIndex d a :
  fieldIndex !! d = Some a → size fieldIndex <= 1 → delete d fieldIndex = ∅.
Proof.
  intros Hd Hs. apply map_size_empty_iff.
  rewrite map_size_delete, Hd. simpl. lia.
Qed.

Lemma cnt_addTerm index f d t t' f' d' :
  cnt (addTerm index f d t) t' f' d' =
    cnt index t' f' d' + (if decide (t' = t ∧ f' = f ∧ d' = d) then 1 else 0).
Proof.
  unfold cnt. rewrite !posting_lookup. unfold addTerm, fetch.
  destruct (decide (t' = t)) as [->|Ht]; [destruct (decide (f' = f)) as [->|Hf];
    [destruct (decide (d' = d)) as [->|Hd]|]|].
  all: destruct (index !! t) as [m|] eqn:Em; simpl;
    [destruct (m !! f) as [fi|] eqn:Ef|]; simpl; simplify_map_eq;
    rewrite ?Em, ?Ef; simpl; try (case_decide; naive_solver lia).
  all: try (destruct (m !! f'); simpl; case_decide; naive_solver lia).
  all: try (destruct (fi !! d); simpl; case_decide; naive_solver lia).
  all: try done.
Qed.


Lemma cnt_cases index t f d :
  cnt index t f d = match index !! t with Some m => cntF m f d | None => 0 end.
Proof.
  unfold cnt, cntF. rewrite posting_lookup.
  destruct (index !! t) as [m|]; [|done]. by destruct (m !! f).
Qed.

Lemma cntF_empty f d : cntF ∅ f d = 0.
Proof. done. Qed.

(** The last step of [removeTerm]: store the term's data, and drop the
    term when its data is empty. *)
Lemma cnt_set_term index t (m : FieldTermData) (w : list Warning) t' f' d' :
  cnt (if decide (size m = 0) then (delete t (<[t := m]> index), w)
       else (<[t := m]> index, w)).1 t' f' d' =
    if decide (t' = t) then cntF m f' d' else cnt index t' f' d'.
Proof.
  case_decide as Hs; simpl; rewrite !cnt_cases.
  - apply map_size_empty_iff in Hs as ->.
    destruct (decide (t' = t)) as [->|Hne].
    + by rewrite lookup_delete_eq.
    + rewrite lookup_delete_ne, lookup_insert_ne by congruence. done.
  - destruct (decide (t' = t)) as [->|Hne].
    + by rewrite lookup_insert_eq.
    + by rewrite lookup_insert_ne by congruence.
Qed.

Lemma cnt_removeTerm index f d t t' f' d' :
  cnt (fst (removeTerm index f d t)) t' f' d' =
    cnt index t' f' d' - (if decide (t' = t ∧ f' = f ∧ d' = d) then 1 else 0).
Proof.
  unfold removeTerm, fetch.
  destruct (index !! t) as [m|] eqn:Em; simpl.
  2:{ rewrite cnt_cases. destruct (decide (t' = t)) as [->|].
      - rewrite Em. lia.
      - case_decide; [naive_solver|lia]. }
  assert (Hc : cnt index t' f' d' =
            if decide (t' = t) then cntF m f' d' else cnt index t' f' d').
  { case_decide; [subst; by rewrite cnt_cases, Em|done]. }
  rewrite Hc; clear Hc.
  destruct (m !! f) as [fi|] eqn:Ef; simpl; [destruct (fi !! d) as [a|] eqn:Ed|]; simpl.
  - destruct (decide (a <= 1)); [destruct (decide (size fi <= 1)) as [Hs|Hs]|]; simpl;
      rewrite cnt_set_term.
    all: destruct (decide (t' = t)) as [->|Ht];
      [|case_decide; [naive_solver|lia]].
    all: unfold cntF; destruct (decide (f' = f)) as [->|Hf];
      [|rewrite ?lookup_delete_ne, ?lookup_insert_ne by congruence;
        case_decide; [naive_solver|lia]].
    all: rewrite ?lookup_delete_eq, ?lookup_insert_eq, ?Ef; simpl.
    all: destruct (decide (d' = d)) as [->|Hd];
      [rewrite ?lookup_delete_eq, ?lookup_insert_eq, ?Ed; simpl;
       case_decide; [lia|naive_solver]|].
    all: rewrite ?lookup_delete_ne, ?lookup_insert_ne by congruence;
      case_decide; [naive_solver|].
    + pose proof (size_le_1_delete fi d a Ed Hs) as He.
      assert (fi !! d' = None) as ->; [|simpl; lia].
      rewrite <- (lookup_delete_ne fi d d') by congruence. by rewrite He.
    + lia.
    + lia.
  - rewrite cnt_set_term. unfold cntF.
    destruct (decide (t' = t)) as [->|Ht]; [|case_decide; [naive_solver|lia]].
    case_decide as Hq; [|lia]. destruct Hq as (_ & -> & ->). rewrite Ef, Ed. done.
  - rewrite cnt_set_term. unfold cntF.
    destruct (decide (t' = t)) as [->|Ht]; [|case_decide; [naive_solver|lia]].
    case_decide as Hq; [|lia]. destruct Hq as (_ & -> & ->). rewrite Ef. done.
Qed.

Lemma posting_set_term index t (m : FieldTermData) (w : list Warning) t' f' d' :
  posting (if decide (size m = 0) then (delete t (<[t := m]> index), w)
           else (<[t := m]> index, w)).1 t' f' d' =
    posting (<[t := m]> index) t' f' d'.
Proof.
  case_decide as Hs; simpl; [|done]. rewrite !posting_lookup.
  apply map_size_empty_iff in Hs as ->.
  destruct (decide (t' = t)) as [->|Hne].
  - by rewrite lookup_delete_eq, lookup_insert_eq.
  - by rewrite lookup_delete_ne by congruence.
Qed.

(** ** Well-formedness is preserved *)

Lemma wf_fields_insert indexData f fieldIndex :
  wf_fields indexData → fieldIndex ≠ ∅ →
  (∀ d n, fieldIndex !! d = Some n → 0 < n) →
  wf_fields (<[f := fieldIndex]> indexData).
Proof.
  intros Hw Hne Hpos f' fi'. rewrite lookup_insert_Some.
  intros [[<- <-]|[_ Hl]]; [done|]. by apply (Hw _ _ Hl).
Qed.

Lemma wf_fields_delete indexData f :
  wf_fields indexData → wf_fields (delete f indexData).
Proof.
  intros Hw f' fi'. rewrite lookup_delete_Some. intros [_ Hl]. by apply (Hw _ _ Hl).
Qed.

Lemma wf_fields_empty : wf_fields ∅.
Proof. intros f fi. by rewrite lookup_empty. Qed.

Lemma wf_index_insert index t indexData :
  wf_index index → indexData ≠ ∅ → wf_fields indexData →
  wf_index (<[t := indexData]> index).
Proof.
  intros Hw Hne Hf t' m'. rewrite lookup_insert_Some.
  intros [[<- <-]|[_ Hl]]; [done|]. by apply (Hw _ _ Hl).
Qed.

Lemma wf_index_set_term index t (m : FieldTermData) (w : list Warning) :
  wf_index index → wf_fields m →
  wf_index (if decide (size m = 0) then (delete t (<[t := m]> index), w)
            else (<[t := m]> index, w)).1.
Proof.
  intros Hw Hf. case_decide as Hs; simpl.
  - apply map_size_empty_iff in Hs as ->. rewrite delete_insert_eq.
    intros t' m'. rewrite lookup_delete_Some. intros [_ Hl]. by apply (Hw _ _ Hl).
  - apply wf_index_insert; [done| |done].
    by rewrite <- map_size_non_empty_iff.
Qed.

Lemma wf_addTerm index f d t :
  wf_index index → wf_index (addTerm index f d t).
Proof.
  intros Hw. unfold addTerm, fetch.
  assert (Hm : wf_fields (default createMap (index !! t))).
  { destruct (index !! t) as [m|] eqn:Em; simpl; [|apply wf_fields_empty].
    by apply (Hw t). }
  assert (Hi : ∀ m, wf_index (<[t := m]> index) → wf_index (<[t := m]> (snd (fetch index t createMap)))).
  { unfold fetch. intros m. destruct (index !! t); simpl; [done|].
    by rewrite insert_insert_eq. }
  destruct (index !! t) as [m|] eqn:Em; simpl in *;
    [destruct (m !! f) as [fi|] eqn:Ef|]; simpl.
  - apply wf_index_insert; [done|apply insert_non_empty|].
    apply wf_fields_insert; [done|apply insert_non_empty|].
    destruct (Hm f fi Ef) as [_ Hpos].
    intros d' n. rewrite lookup_insert_Some.
    intros [[<- <-]|[_ Hl]]; [lia|]. by apply (Hpos d').
  - apply wf_index_insert; [done|apply insert_non_empty|].
    apply wf_fields_insert; [done|apply insert_non_empty|].
    intros d' n. rewrite lookup_insert_Some, lookup_empty.
    intros [[<- <-]|[_ Hl]]; [lia|done].
  - rewrite insert_insert_eq.
    apply wf_index_insert; [done|apply insert_non_empty|].
    apply wf_fields_insert; [done|apply insert_non_empty|].
    intros d' n. rewrite lookup_insert_Some, lookup_empty.
    intros [[<- <-]|[_ Hl]]; [lia|done].
Qed.

Lemma wf_removeTerm index f d t :
  wf_index index → wf_index (fst (removeTerm index f d t)).
Proof.
  intros Hw. unfold removeTerm, fetch.
  destruct (index !! t) as [m|] eqn:Em; simpl; [|done].
  destruct (Hw t m Em) as [_ Hm].
  rewrite <- (insert_id index t m Em) in Hw.
  assert (Hw' : wf_index index) by (by rewrite insert_id in Hw).
  destruct (m !! f) as [fi|] eqn:Ef; simpl; [destruct (fi !! d) as [a|] eqn:Ed|]; simpl;
    [|apply wf_index_set_term; done|apply wf_index_set_term; done].
  destruct (Hm f fi Ef) as [_ Hpos].
  destruct (decide (a <= 1)) as [Ha|Ha]; [destruct (decide (size fi <= 1)) as [Hs|Hs]|]; simpl;
    apply wf_index_set_term; try done.
  - by apply wf_fields_delete.
  - apply wf_fields_insert; [done| |].
    + rewrite <- map_size_non_empty_iff, map_size_delete, Ed. simpl. lia.
    + intros d' n. rewrite lookup_delete_Some. intros [_ Hl]. by apply (Hpos d').
  - apply wf_fields_insert; [done|apply insert_non_empty|].
    intros d' n. rewrite lookup_insert_Some.
    intros [[<- <-]|[_ Hl]]; [lia|]. by apply (Hpos d').
Qed.

(** ** The posting structure determines a well-formed index *)

Lemma wf_field_has_posting (m : FieldTermData) f fi :
  wf_fields m → m !! f = Some fi → ∃ d n, fi !! d = Some n ∧ 0 < n.
Proof.
  intros Hm Hf. destruct (Hm f fi Hf) as [Hne Hpos].
  destruct (map_choose fi Hne) as (d & n & Hd). exists d, n. eauto.
Qed.

Lemma wf_term_has_posting index t m :
  wf_index index → index !! t = Some m →
  ∃ f fi d n, m !! f = Some fi ∧ fi !! d = Some n ∧ 0 < n.
Proof.
  intros Hw Ht. destruct (Hw t m Ht) as [Hne Hm].
  destruct (map_choose m Hne) as (f & fi & Hf).
  destruct (wf_field_has_posting m f fi Hm Hf) as (d & n & Hd & Hn).
  by exists f, fi, d, n.
Qed.

Lemma wf_index_ext index1 index2 :
  wf_index index1 → wf_index index2 →
  (∀ t f d, cnt index1 t f d = cnt index2 t f d) → index1 = index2.
Proof.
  intros Hw1 Hw2 Hc. apply map_eq. intros t.
  pose proof (Hc t) as Hct. setoid_rewrite cnt_cases in Hct. unfold cntF in Hct.
  destruct (index1 !! t) as [m1|] eqn:E1, (index2 !! t) as [m2|] eqn:E2.
  - f_equal. destruct (Hw1 t m1 E1) as [_ Hm1]. destruct (Hw2 t m2 E2) as [_ Hm2].
    apply map_eq. intros f. pose proof (Hct f) as Hcf.
    destruct (m1 !! f) as [x1|] eqn:F1, (m2 !! f) as [x2|] eqn:F2.
    + f_equal. destruct (Hm1 f x1 F1) as [_ P1]. destruct (Hm2 f x2 F2) as [_ P2].
      apply map_eq. intros d. specialize (Hcf d). specialize (P1 d). specialize (P2 d).
      destruct (x1 !! d) as [n1|], (x2 !! d) as [n2|]; simpl in Hcf;
        [by subst|pose proof (P1 n1 eq_refl); lia|pose proof (P2 n2 eq_refl); lia|done].
    + destruct (wf_field_has_posting m1 f x1 Hm1 F1) as (d & n & Hd & Hn).
      specialize (Hcf d). rewrite Hd in Hcf. simpl in Hcf. lia.
    + destruct (wf_field_has_posting m2 f x2 Hm2 F2) as (d & n & Hd & Hn).
      specialize (Hcf d). rewrite Hd in Hcf. simpl in Hcf. lia.
    + done.
  - destruct (wf_term_has_posting index1 t m1 Hw1 E1) as (f & fi & d & n & Hf & Hd & Hn).
    specialize (Hct f d). rewrite Hf, Hd in Hct. simpl in Hct. lia.
  - destruct (wf_term_has_posting index2 t m2 Hw2 E2) as (f & fi & d & n & Hf & Hd & Hn).
    specialize (Hct f d). rewrite Hf, Hd in Hct. simpl in Hct. lia.
  - done.
Qed.

(** Under well-formedness a posting is present exactly when its count is
    positive. *)
Lemma wf_posting_cnt index t f d :
  wf_index index →
  posting index t f d = if decide (cnt index t f d = 0) then None
                        else Some (cnt index t f d).
Proof.
  intros Hw. unfold cnt. rewrite !posting_lookup.
  destruct (index !! t) as [m|] eqn:Et; [|done].
  destruct (Hw t m Et) as [_ Hm].
  destruct (m !! f) as [fi|] eqn:Ef; [|done].
  destruct (Hm f fi Ef) as [_ Hpos]. specialize (Hpos d).
  destruct (fi !! d) as [n|]; simpl; [|done].
  specialize (Hpos n eq_refl). case_decide; [lia|done].
Qed.

(** ** Adding and removing the occurrences of one document *)


Lemma wf_addTerms index d occ :
  wf_index index → wf_index (addTerms index d occ).
Proof.
  revert index. induction occ as [|[f t] rest IH]; intros index Hw; [done|].
  apply IH. by apply wf_addTerm.
Qed.

Lemma cnt_addTerms index d occ t' f' d' :
  cnt (addTerms index d occ) t' f' d' =
    cnt index t' f' d' + (if decide (d' = d) then occurrences occ f' t' else 0).
Proof.
  revert index. induction occ as [|[f t] rest IH]; intros index.
  - simpl. unfold occurrences. simpl. case_decide; lia.
  - change (addTerms index d ((f, t) :: rest)) with (addTerms (addTerm index f d t) d rest).
    rewrite IH, cnt_addTerm. unfold occurrences. rewrite filter_cons.
    repeat case_decide; simpl; naive_solver lia.
Qed.

Lemma removeTerm_addTerms_head index f d t rest :
  wf_index index →
  fst (removeTerm (addTerms (addTerm index f d t) d rest) f d t) = addTerms index d rest.
Proof.
  intros Hw. apply wf_index_ext.
  - apply wf_removeTerm, wf_addTerms, wf_addTerm, Hw.
  - by apply wf_addTerms.
  - intros t' f' d'. rewrite cnt_removeTerm, !cnt_addTerms, cnt_addTerm.
    repeat case_decide; naive_solver lia.
Qed.

Lemma removeTerms_addTerms index d occ :
  wf_index index → removeTerms (addTerms index d occ) d occ = index.
Proof.
  revert index. induction occ as [|[f t] rest IH]; intros index Hw; [done|].
  transitivity
    (removeTerms (fst (removeTerm (addTerms (addTerm index f d t) d rest) f d t)) d rest);
    [reflexivity|].
  rewrite removeTerm_addTerms_head by done. by apply IH.
Qed.

Lemma wf_runTermOps index ops :
  wf_index index → wf_index (runTermOps index ops).
Proof.
  revert index. induction ops as [|op ops IH]; intros index Hw; [done|].
  apply IH. destruct op; simpl; [by apply wf_addTerm|by apply wf_removeTerm].
Qed.

Lemma wf_index_check_sound index : wf_index_check index = true → wf_index index.
Proof.
  unfold wf_index_check. rewrite bool_decide_eq_true. intros Hall t m Ht.
  destruct (Hall t m Ht) as [Hne Hm]. split; [done|].
  intros f fi Hf. destruct (Hm f fi Hf) as [Hfne Hpos]. split; [done|].
  intros d n Hd. apply (Hpos d n Hd).
Qed.

End Postings.

(* ------------------------------------------------------------------ *)
(** ** The result list of [search] *)

Section SortLemmas.

Context {A : Type} (compare : A → A → option Q).

Lemma insertSorted_perm x l : Permutation (insertSorted compare x l) (x :: l).
Proof.
  induction l as [|y l IH]; simpl; [done|].
  destruct (comparesGreater (compare x y)); [|done].
  rewrite IH. apply perm_swap.
Qed.

Lemma sortBy_perm l : Permutation (sortBy compare l) l.
Proof.
  induction l as [|x l IH]; simpl; [done|].
  rewrite insertSorted_perm. by apply perm_skip.
Qed.

(** A relation on the elements that the comparison respects: [compare]
    not greater than 0 gives [R x y], greater than 0 gives [R y x]. *)
Variable R : A → A → Prop.
Variable P : A → Prop.
Hypothesis compare_total : ∀ x y, P x → P y →
  if comparesGreater (compare x y) then R y x else R x y.

Lemma insertSorted_HdRel x y l :
  R y x → HdRel R y l → HdRel R y (insertSorted compare x l).
Proof.
  intros Hyx Hl. destruct l as [|z l]; simpl; [by constructor|].
  destruct (comparesGreater (compare x z)); constructor; [by inversion Hl|done].
Qed.

Lemma insertSorted_Forall x l : P x → Forall P l → Forall P (insertSorted compare x l).
Proof.
  intros Hx Hl. rewrite Forall_forall in Hl |- *. intros z Hz.
  rewrite insertSorted_perm in Hz.
  apply elem_of_cons in Hz as [->|Hz]; [done|]. by apply Hl.
Qed.

Lemma insertSorted_Sorted x l :
  P x → Forall P l → Sorted R l → Sorted R (insertSorted compare x l).
Proof.
  intros Hx. induction l as [|y l IH]; intros Hl Hs; simpl; [by repeat constructor|].
  inversion Hl as [|? ? Hy Hl']; subst. inversion Hs as [|? ? Hs' Hhd]; subst.
  pose proof (compare_total x y Hx Hy) as Hxy.
  destruct (comparesGreater (compare x y)).
  - constructor; [by apply IH|]. by apply insertSorted_HdRel.
  - by repeat constructor.
Qed.

Lemma sortBy_Sorted l : Forall P l → Sorted R (sortBy compare l).
Proof.
  induction l as [|x l IH]; intros Hl; simpl; [constructor|].
  inversion Hl; subst. apply insertSorted_Sorted; [done| |by apply IH].
  rewrite Forall_forall in Hl |- *. intros z Hz.
  rewrite sortBy_perm in Hz. apply Hl. by right.
Qed.

End SortLemmas.

(** Stability of the sort by [byScore]: inserting a result never moves
    it past a result of the same score. *)
Lemma insertSorted_hasScore_filter {ID} (q : Q) (x : JSObject ID) l :
  filter (λ r, hasScore q r = true) (insertSorted byScore x l) =
    filter (λ r, hasScore q r = true) (x :: l).
Proof.
  induction l as [|y l IH]; [done|]. cbn [insertSorted].
  destruct (comparesGreater (byScore x y)) eqn:Hg; [|done].
  destruct (hasScore q y) eqn:Hy.
  - assert (Hx : hasScore q x = false).
    { unfold hasScore, byScore, comparesGreater in *.
      destruct (scoreOf x) as [a|], (scoreOf y) as [b|]; try done.
      destruct (Qeq_bool a q) eqn:Ha; [|done]. exfalso.
      apply Qeq_bool_iff in Ha, Hy.
      assert (Hle : (b - a <= 0)%Q) by lra.
      apply Qle_bool_iff in Hle. rewrite Hle in Hg. done. }
    rewrite !filter_cons, IH, filter_cons.
    repeat case_decide; congruence.
  - rewrite !filter_cons, IH, filter_cons.
    repeat case_decide; congruence.
Qed.

Lemma sortBy_hasScore_filter {ID} (q : Q) (l : list (JSObject ID)) :
  filter (λ r, hasScore q r = true) (sortBy byScore l) =
    filter (λ r, hasScore q r = true) l.
Proof.
  induction l as [|x l IH]; [done|]. cbn [sortBy].
  rewrite insertSorted_hasScore_filter, !filter_cons, IH. done.
Qed.

Section ResultLemmas.

Context {ID : Type} `{Countable ID}.
Implicit Types (s : SearchIndex ID) (so : SearchOptions ID) (qr : QueryResult).

Lemma pushResult_app s so acc e :
  pushResult s so acc e = acc ++ pushResult s so [] e.
Proof.
  destruct e as [docId qr]. unfold pushResult.
  destruct (so_filter so) as [filter|]; [|done].
  destruct (filter _); [done|]. by rewrite app_nil_r.
Qed.

Lemma foldl_pushResult_app s so acc l :
  foldl (pushResult s so) acc l = acc ++ foldl (pushResult s so) [] l.
Proof.
  induction l as [|e l IH] in acc |- *; simpl; [by rewrite app_nil_r|].
  rewrite IH, (IH (pushResult s so [] e)), pushResult_app.
  by rewrite app_assoc.
Qed.

Lemma foldl_pushResult_no_filter s so l :
  so_filter so = None →
  foldl (pushResult s so) [] l = (λ '(docId, qr), makeResult s docId qr) <$> l.
Proof.
  intros Hf. induction l as [|[docId qr] l IH]; simpl; [done|].
  rewrite foldl_pushResult_app, IH. unfold pushResult. by rewrite Hf.
Qed.

Lemma foldl_pushResult_elem s so l r :
  r ∈ foldl (pushResult s so) [] l →
  ∃ docId qr, (docId, qr) ∈ l ∧ r = makeResult s docId qr.
Proof.
  induction l as [|[docId qr] l IH]; simpl; [by rewrite elem_of_nil|].
  rewrite foldl_pushResult_app, elem_of_app. intros [Hr|Hr].
  - exists docId, qr. split; [by left|].
    unfold pushResult in Hr.
    destruct (so_filter so) as [filter|]; [destruct (filter _)|];
      simpl in Hr; rewrite ?elem_of_nil, ?list_elem_of_singleton in Hr; done.
  - destruct (IH Hr) as (d & q & Hin & ->). exists d, q. split; [by right|done].
Qed.

Lemma searchCombined_elem s combined so r :
  r ∈ searchCombined s combined so →
  ∃ docId qr, (docId, qr) ∈ combined ∧ r = makeResult s docId qr.
Proof.
  unfold searchCombined. intros Hr. apply (foldl_pushResult_elem s so).
  by rewrite sortBy_perm in Hr.
Qed.

(** The [score] member of a result: the stored one when the document's
    stored fields have one, else [score * quality]. *)
Lemma makeResult_score s docId qr :
  makeResult s docId qr !! "score" =
    match _storedFields s !! docId ≫= λ stored : JSObject ID, stored !! "score" with
    | Some v => Some v
    | None => Some (JNum (score qr * inject_Z (Z.of_nat (length (terms qr))))%Q)
    end.
Proof.
  unfold makeResult. destruct (_storedFields s !! docId) as [stored|]; simpl.
  - rewrite lookup_union. destruct (stored !! "score"); simpl.
    + rewrite lookup_insert_ne by done. by rewrite lookup_insert_eq.
    + rewrite lookup_insert_ne by done. by rewrite lookup_insert_eq.
  - rewrite lookup_insert_ne by done. by rewrite lookup_insert_eq.
Qed.

End ResultLemmas.

(* ------------------------------------------------------------------ *)
(** ** Serialization lemmas *)

Section SerializationLemmas.

Context {K V W : Type} `{Countable K}.

(** Rebuilding each entry of a map's iteration is iterating the mapped map. *)
Lemma fmap_pair_map_to_list (g : V → W) (m : gmap K V) :
  (λ '(k, v), (k, g v)) <$> map_to_list m = map_to_list (g <$> m).
Proof.
  rewrite map_to_list_fmap. apply list_fmap_ext. by intros ? [??] _.
Qed.

Lemma elem_of_map_to_list_keys (m : gmap K V) k :
  k ∈ (map_to_list m).*1 ↔ is_Some (m !! k).
Proof.
  rewrite list_elem_of_fmap. split.
  - intros ([k' v] & -> & Hin). apply elem_of_map_to_list in Hin. by exists v.
  - intros [v Hv]. exists (k, v). split; [done|]. by apply elem_of_map_to_list.
Qed.

End SerializationLemmas.

Lemma serializeFieldIndex_map (fieldIndex : FieldTermData) :
  serializeFieldIndex fieldIndex = map_to_list (fromEntries <$> fieldIndex).
Proof. apply fmap_pair_map_to_list. Qed.

Lemma toJSON_index {ID} `{Countable ID} (s : SearchIndex ID) :
  index (toJSON s) = map_to_list (serializeFieldIndex <$> _index s).
Proof. apply fmap_pair_map_to_list. Qed.

Lemma loadIndexEntries_serialized (idx : SearchableMap FieldTermData) :
  loadIndexEntries (map_to_list (serializeFieldIndex <$> idx)) = idx.
Proof.
  unfold loadIndexEntries. rewrite fmap_pair_map_to_list, list_to_map_to_list.
  rewrite <-map_fmap_compose. rewrite <-(map_fmap_id idx) at 2.
  apply map_fmap_ext. intros t fieldIndex _. simpl.
  rewrite serializeFieldIndex_map, fmap_pair_map_to_list, list_to_map_to_list.
  rewrite <-map_fmap_compose. rewrite <-(map_fmap_id fieldIndex) at 2.
  apply map_fmap_ext. intros f frequencies _. simpl.
  apply list_to_map_to_list.
Qed.

(** The inverse of [_documentIds] rebuilt by [loadJSON]. *)
Lemma elem_of_swapped_ids {ID} `{Countable ID} (documentIds : gmap nat ID) id shortId :
  (id, shortId) ∈ reverse ((λ '(shortId, id), (id, shortId)) <$> map_to_list documentIds)
  ↔ documentIds !! shortId = Some id.
Proof.
  rewrite elem_of_reverse, list_elem_of_fmap. split.
  - intros ([sid i] & Heq & Hin). simplify_eq. by apply elem_of_map_to_list.
  - intros Hl. exists (shortId, id). split; [done|]. by apply elem_of_map_to_list.
Qed.

Lemma swapped_ids_inverse {ID} `{Countable ID} (documentIds : gmap nat ID)
    (idToShortId : gmap ID nat) :
  map_Forall (λ shortId id, idToShortId !! id = Some shortId) documentIds →
  map_Forall (λ id shortId, documentIds !! shortId = Some id) idToShortId →
  list_to_map (reverse ((λ '(shortId, id), (id, shortId)) <$> map_to_list documentIds))
    = idToShortId.
Proof.
  intros Hfw Hbw. apply map_eq. intros id.
  destruct (idToShortId !! id) as [shortId|] eqn:Hid.
  - apply elem_of_list_to_map_1'.
    + intros y Hy. apply elem_of_swapped_ids in Hy. apply Hfw in Hy. congruence.
    + apply elem_of_swapped_ids. by apply Hbw.
  - apply not_elem_of_list_to_map_1. rewrite list_elem_of_fmap.
    intros ([i sid] & -> & Hin). apply elem_of_swapped_ids in Hin.
    apply Hfw in Hin. simpl in *. congruence.
Qed.

(* ------------------------------------------------------------------ *)
(** ** The posting structure under [addTerm] and [removeTerm] *)

(** C1: along any sequence of [addTerm] and [removeTerm] calls started
    on an empty dictionary, every term in the dictionary has a
    (fieldId, documentId) posting with a positive frequency. The
    invariant that both operations preserve is [wf_index] (no empty term
    data, no empty field data, no zero frequency), which implies it. *)
Theorem termOps_keep_postings (ops : list TermOp) :
  let index := runTermOps ∅ ops in
  (∀ term indexData, index !! term = Some indexData →
     ∃ fieldId fieldIndex documentId n,
       indexData !! fieldId = Some fieldIndex ∧
       fieldIndex !! documentId = Some n ∧ 0 < n) ∧
  wf_index index ∧
  (∀ index' f d t, wf_index index' →
     wf_index (addTerm index' f d t) ∧ wf_index (fst (removeTerm index' f d t))).
Proof.
  simpl. assert (Hw : wf_index (runTermOps ∅ ops)).
  { apply wf_runTermOps. intros t m. by rewrite lookup_empty. }
  split; [|split; [done|]].
  - intros t m Ht. by apply (wf_term_has_posting _ t m Hw Ht).
  - intros index' f d t Hw'. split; [by apply wf_addTerm|by apply wf_removeTerm].
Qed.

(** C2: when the term is absent, or has no entry for the field, or no
    entry for the document under that field, [removeTerm] reports one
    DocumentChanged warning, and no posting changes; on a well-formed
    dictionary it returns the dictionary unchanged. *)
Theorem removeTerm_missing_posting_warns index (fieldId documentId : nat) term :
  (index !! term = None ∨
   (∃ indexData, index !! term = Some indexData ∧ indexData !! fieldId = None) ∨
   (∃ indexData fieldIndex, index !! term = Some indexData ∧
      indexData !! fieldId = Some fieldIndex ∧ fieldIndex !! documentId = None)) →
  snd (removeTerm index fieldId documentId term) =
    [warnDocumentChanged documentId fieldId term] ∧
  (∀ t f d, posting (fst (removeTerm index fieldId documentId term)) t f d =
            posting index t f d) ∧
  (wf_index index → fst (removeTerm index fieldId documentId term) = index).
Proof.
  intros Habs. unfold removeTerm, fetch.
  destruct (index !! term) as [m|] eqn:Em; simpl; [|done].
  assert (Hgoal : ∀ w : list Warning, w = [warnDocumentChanged documentId fieldId term] →
    (if decide (size m = 0) then (delete term (<[term := m]> index), w)
     else (<[term := m]> index, w)).2 = [warnDocumentChanged documentId fieldId term] ∧
    (∀ t f d, posting (if decide (size m = 0) then (delete term (<[term := m]> index), w)
               else (<[term := m]> index, w)).1 t f d = posting index t f d) ∧
    (wf_index index → (if decide (size m = 0) then (delete term (<[term := m]> index), w)
               else (<[term := m]> index, w)).1 = index)).
  { intros w ->. split; [by case_decide|split].
    - intros t f d. rewrite posting_set_term. by rewrite insert_id.
    - intros Hw. destruct (Hw term m Em) as [Hne _].
      rewrite decide_False by (by rewrite map_size_empty_iff). simpl.
      by apply insert_id. }
  destruct Habs as [?|[(m' & Hm' & Hf)|(m' & fi & Hm' & Hf & Hd)]]; [congruence| |];
    simplify_eq; rewrite Hf; simpl; [|rewrite Hd; simpl]; by apply Hgoal.
Qed.

(** C3: on a well-formed dictionary, removing with [removeTerm] the
    (fieldId, term) occurrences that were added for a document, in the
    order [add] added them, gives back the dictionary as it was before
    the document was added. Hence, when the document had no postings
    before, every term whose postings all belonged to it is gone, and
    every term with a posting of another document stays with the other
    documents' postings unchanged; in particular [removeTerm] after
    [addTerm] of the same triple restores the dictionary. *)
Theorem remove_document_postings index (documentId : nat) (occ : list (nat * string)) :
  wf_index index →
  let added := addTerms index documentId occ in
  let removed := removeTerms added documentId occ in
  removed = index ∧
  (∀ fieldId term,
     fst (removeTerm (addTerm index fieldId documentId term) fieldId documentId term)
       = index) ∧
  ((∀ t f, posting index t f documentId = None) →
   (∀ t, (∀ f d, posting added t f d ≠ None → d = documentId) →
         removed !! t = None) ∧
   (∀ t f0 d0, d0 ≠ documentId → posting added t f0 d0 ≠ None →
      is_Some (removed !! t) ∧
      ∀ f d, d ≠ documentId → posting removed t f d = posting added t f d)).
Proof.
  intros Hw. cbv zeta.
  assert (Hrm : removeTerms (addTerms index documentId occ) documentId occ = index)
    by (apply removeTerms_addTerms, Hw).
  assert (Hwa : wf_index (addTerms index documentId occ)) by (apply wf_addTerms, Hw).
  split; [done|split].
  { intros f t. apply (removeTerms_addTerms index documentId [(f, t)] Hw). }
  intros Hfresh. rewrite Hrm. split.
  - intros t Hexcl. destruct (index !! t) as [m|] eqn:Et; [|done]. exfalso.
    destruct (wf_term_has_posting index t m Hw Et) as (f & fi & d & n & Hf & Hd & Hn).
    assert (Hpi : posting index t f d = Some n) by (rewrite posting_lookup, Et, Hf; done).
    assert (d = documentId) as ->.
    { apply (Hexcl f). rewrite (wf_posting_cnt (addTerms index documentId occ)) by done.
      assert (Hc : cnt index t f d = n) by (unfold cnt; rewrite Hpi; done).
      rewrite cnt_addTerms, Hc. case_decide; [lia|done]. }
    by rewrite Hfresh in Hpi.
  - intros t f0 d0 Hd0 Hp. rewrite (wf_posting_cnt (addTerms index documentId occ)) in Hp by done.
    rewrite cnt_addTerms, (decide_False (P := d0 = documentId)), Nat.add_0_r in Hp by done.
    split.
    + rewrite cnt_cases in Hp. destruct (index !! t); [done|exfalso; apply Hp; by rewrite decide_True].
    + intros f d Hd. rewrite !wf_posting_cnt by done.
      by rewrite cnt_addTerms, (decide_False (P := d = documentId)), Nat.add_0_r by done.
Qed.

Lemma removeTerm_missing_posting_warns_witness :
  (sample_index !! "zen" = None ∨
   (∃ indexData, sample_index !! "zen" = Some indexData ∧ indexData !! 0 = None) ∨
   (∃ indexData fieldIndex, sample_index !! "zen" = Some indexData ∧
      indexData !! 0 = Some fieldIndex ∧ fieldIndex !! 2 = None)) ∧
  snd (removeTerm sample_index 0 2 "zen") = [warnDocumentChanged 2 0 "zen"] ∧
  (∀ t f d, posting (fst (removeTerm sample_index 0 2 "zen")) t f d =
            posting sample_index t f d) ∧
  (wf_index sample_index → fst (removeTerm sample_index 0 2 "zen") = sample_index).
Proof.
  assert (H : sample_index !! "zen" = None ∨
   (∃ indexData, sample_index !! "zen" = Some indexData ∧ indexData !! 0 = None) ∨
   (∃ indexData fieldIndex, sample_index !! "zen" = Some indexData ∧
      indexData !! 0 = Some fieldIndex ∧ fieldIndex !! 2 = None)).
  { right; right. do 2 eexists. split; [reflexivity|split; reflexivity]. }
  split; [exact H|]. exact (removeTerm_missing_posting_warns sample_index 0 2 "zen" H).
Defined.

Lemma remove_document_postings_witness :
  wf_index sample_index ∧
  let occ := [(0, "zen"); (1, "motorcycle"); (0, "zen")] in
  let added := addTerms sample_index 5 occ in
  let removed := removeTerms added 5 occ in
  removed = sample_index ∧
  (∀ fieldId term,
     fst (removeTerm (addTerm sample_index fieldId 5 term) fieldId 5 term)
       = sample_index) ∧
  ((∀ t f, posting sample_index t f 5 = None) →
   (∀ t, (∀ f d, posting added t f d ≠ None → d = 5) →
         removed !! t = None) ∧
   (∀ t f0 d0, d0 ≠ 5 → posting added t f0 d0 ≠ None →
      is_Some (removed !! t) ∧
      ∀ f d, d ≠ 5 → posting removed t f d = posting added t f d)).
Proof.
  assert (H : wf_index sample_index)
    by (apply wf_index_check_sound; vm_compute; reflexivity).
  split; [exact H|].
  exact (remove_document_postings sample_index 5 [(0, "zen"); (1, "motorcycle"); (0, "zen")] H).
Defined.

Example addTerm_example :
  addTerm (addTerm ∅ 0 1 "zen") 1 1 "zen" =
    {[ "zen" := {[ 0 := {[ 1 := 1 ]}; 1 := {[ 1 := 1 ]} ]} ]}.
Proof. reflexivity. Qed.

Example removeTerm_example :
  removeTerm (addTerm ∅ 0 1 "zen") 0 1 "zen" = (∅, []).
Proof. reflexivity. Qed.

Example wf_check_example : wf_index_check (addTerm (addTerm ∅ 0 1 "zen") 0 1 "zen") = true.
Proof. vm_compute. reflexivity. Qed.

Example search_example :
  (λ r : JSObject nat, (r !! "id", scoreOf r)) <$>
    searchCombined sample_state sample_results emptySearchOptions =
  [(Some (JId 13), Some ((3 # 2) * 2)%Q); (Some (JId 11), Some (2 * 1)%Q)].
Proof. vm_compute. reflexivity. Qed.


(* ------------------------------------------------------------------ *)
(** ** Scores and order of the results of [search] *)

(** C4 (amended). When the stored fields of the documents have no member
    named [score] and each combined result lists every matched query term
    once, every result [search] returns comes from one entry of the
    combined results of [executeQuery], and its score is the entry's
    accumulated score times the number of distinct query terms it
    matched. *)
Theorem search_score_times_distinct_terms {ID} `{Countable ID} {Query : Type}
    (executeQuery : SearchIndex ID → Query → SearchOptions ID → list (nat * QueryResult))
    (s : SearchIndex ID) (query : Query) (so : SearchOptions ID) :
  Forall (λ e, NoDup (terms e.2)) (executeQuery s query so) →
  map_Forall (λ _ stored, stored !! "score" = None) (_storedFields s) →
  Forall (λ r, ∃ docId qr, (docId, qr) ∈ executeQuery s query so ∧
                 r = makeResult s docId qr ∧
                 scoreOf r = Some (score qr *
                   inject_Z (Z.of_nat (size (list_to_set (terms qr) : gset string))))%Q)
    (search executeQuery s query so).
Proof.
  intros Hterms Hstored. apply Forall_forall. intros r Hr.
  destruct (searchCombined_elem s _ so r Hr) as (docId & qr & Hin & ->).
  exists docId, qr. split; [done|]. split; [done|].
  rewrite Forall_forall in Hterms. specialize (Hterms _ Hin). simpl in Hterms.
  rewrite size_list_to_set by done.
  unfold scoreOf. rewrite makeResult_score.
  destruct (_storedFields s !! docId) as [stored|] eqn:Hs; simpl; [|done].
  by rewrite (Hstored _ _ Hs).
Qed.

(** C5 (amended). When every stored member named [score] is a number,
    the list [search] returns is sorted by descending score: every result
    has a numeric score, and a result placed before another has a score
    at least as high. The sort is stable: for every score value, the
    results with that score come in the order of the combined results of
    [executeQuery] (after the filter), whatever their short ids. *)
Theorem search_sorted_by_descending_score {ID} `{Countable ID} {Query : Type}
    (executeQuery : SearchIndex ID → Query → SearchOptions ID → list (nat * QueryResult))
    (s : SearchIndex ID) (query : Query) (so : SearchOptions ID) :
  map_Forall (λ _ stored, ∀ v, stored !! "score" = Some v → ∃ q, v = JNum q)
    (_storedFields s) →
  StronglySorted (λ a b, ∃ qa qb, scoreOf a = Some qa ∧ scoreOf b = Some qb ∧ (qb <= qa)%Q)
    (search executeQuery s query so) ∧
  ∀ q, filter (λ r, hasScore q r = true) (search executeQuery s query so) =
       filter (λ r, hasScore q r = true)
         (foldl (pushResult s so) [] (executeQuery s query so)).
Proof.
  intros Hstored. unfold search, searchCombined.
  split; [|intros q; apply sortBy_hasScore_filter].
  apply Sorted_StronglySorted.
  { intros a b c (qa & qb & Ha & Hb & Hab) (qb' & qc & Hb' & Hc & Hbc).
    rewrite Hb in Hb'. injection Hb' as <-.
    exists qa, qc. repeat split; [done|done|]. by apply Qle_trans with qb. }
  apply (sortBy_Sorted byScore _ (λ a, is_Some (scoreOf a))).
  - intros x y [qx Hx] [qy Hy]. unfold byScore. rewrite Hx, Hy. simpl.
    destruct (Qle_bool (qy - qx) 0) eqn:Hle; simpl.
    + apply Qle_bool_iff in Hle. exists qx, qy. split; [done|split; [done|lra]].
    + assert (¬ (qy - qx <= 0)%Q) as Hlt.
      { intros Hc. apply Qle_bool_iff in Hc. congruence. }
      apply Qnot_le_lt in Hlt. exists qy, qx. split; [done|split; [done|lra]].
  - apply Forall_forall. intros r Hr.
    destruct (foldl_pushResult_elem s so _ r Hr) as (docId & qr & _ & ->).
    unfold scoreOf. rewrite makeResult_score.
    destruct (_storedFields s !! docId) as [stored|] eqn:Hs; simpl; [|by eexists].
    destruct (stored !! "score") as [v|] eqn:Hv; [|by eexists].
    destruct (Hstored _ _ Hs v Hv) as [q ->]. by eexists.
Qed.

(** C10. A call of [search] whose options have no [filter] keeps every
    combined result of [executeQuery]: the returned list is a
    permutation of all of them, whatever filter the index's own
    [searchOptions] hold. *)
Theorem search_without_filter_keeps_all {ID} `{Countable ID} {Query : Type}
    (executeQuery : SearchIndex ID → Query → SearchOptions ID → list (nat * QueryResult))
    (s : SearchIndex ID) (query : Query) (so : SearchOptions ID) :
  so_filter so = None →
  Permutation (search executeQuery s query so)
    ((λ '(docId, qr), makeResult s docId qr) <$> executeQuery s query so).
Proof.
  intros Hf. unfold search, searchCombined.
  rewrite sortBy_perm. by rewrite foldl_pushResult_no_filter.
Qed.

(* ------------------------------------------------------------------ *)
(** ** Serialization, construction and [dirtFactor] *)

(** C6. [toJSON] returns an [IndexObject]: its scalar members are the
    state's counters and tables, [version] is 2, the map-valued members
    list exactly the entries of the state's maps, and [index] lists each
    term of the dictionary once, with, for each of its fields, the
    frequency of each document: a (term, field, document, frequency)
    entry occurs in [index] exactly when it is a posting of the
    dictionary. *)
Theorem toJSON_serializes_state {ID} `{Countable ID} (s : SearchIndex ID) :
  let js := toJSON s in
  version js = 2%Z ∧
  documentCount js = _documentCount s ∧ nextId js = _nextId s ∧
  fieldIds js = _fieldIds s ∧ averageFieldLength js = _avgFieldLength s ∧
  dirtCount js = _dirtCount s ∧
  (∀ shortId id, (shortId, id) ∈ documentIds js ↔ _documentIds s !! shortId = Some id) ∧
  (∀ shortId l, (shortId, l) ∈ fieldLength js ↔ _fieldLength s !! shortId = Some l) ∧
  (∀ shortId o, (shortId, o) ∈ storedFields js ↔ _storedFields s !! shortId = Some o) ∧
  NoDup (index js).*1 ∧
  (∀ term, term ∈ (index js).*1 ↔ is_Some (_index s !! term)) ∧
  (∀ term data, (term, data) ∈ index js →
     NoDup data.*1 ∧ ∀ fieldId entry, (fieldId, entry) ∈ data → NoDup entry.*1) ∧
  (∀ term fieldId shortId freq,
     (∃ data entry, (term, data) ∈ index js ∧ (fieldId, entry) ∈ data ∧
                    (shortId, freq) ∈ entry)
     ↔ posting (_index s) term fieldId shortId = Some freq).
Proof.
  cbv zeta. rewrite toJSON_index.
  split; [done|]. do 5 (split; [done|]).
  split; [intros; apply elem_of_map_to_list|].
  split; [intros; apply elem_of_map_to_list|].
  split; [intros; apply elem_of_map_to_list|].
  split; [apply NoDup_fst_map_to_list|].
  split.
  { intros term. rewrite elem_of_map_to_list_keys, lookup_fmap.
    by rewrite fmap_is_Some. }
  split.
  { intros term data Hd. apply elem_of_map_to_list in Hd.
    rewrite lookup_fmap_Some in Hd. destruct Hd as (fieldIndex & <- & _).
    rewrite serializeFieldIndex_map. split; [apply NoDup_fst_map_to_list|].
    intros fieldId entry He. apply elem_of_map_to_list in He.
    rewrite lookup_fmap_Some in He. destruct He as (frequencies & <- & _).
    apply NoDup_fst_map_to_list. }
  intros term fieldId shortId freq. rewrite posting_lookup. split.
  - intros (data & entry & Hd & He & Hf).
    apply elem_of_map_to_list in Hd. rewrite lookup_fmap_Some in Hd.
    destruct Hd as (fieldIndex & <- & Hi). rewrite Hi.
    rewrite serializeFieldIndex_map in He.
    apply elem_of_map_to_list in He. rewrite lookup_fmap_Some in He.
    destruct He as (frequencies & <- & Hfi). rewrite Hfi.
    by apply elem_of_map_to_list in Hf.
  - destruct (_index s !! term) as [fieldIndex|] eqn:Hi; [|done].
    destruct (fieldIndex !! fieldId) as [frequencies|] eqn:Hfi; [|done].
    intros Hf. exists (serializeFieldIndex fieldIndex), (fromEntries frequencies).
    split; [apply elem_of_map_to_list; by rewrite lookup_fmap, Hi|].
    split; [rewrite serializeFieldIndex_map; apply elem_of_map_to_list;
            by rewrite lookup_fmap, Hfi|].
    by apply elem_of_map_to_list.
Qed.

(** C7. Spec-modelled [loadJSON]. For a state created with construction
    options [opts] (its options are those the constructor derives from
    [opts]) whose [_idToShortId] is the inverse of [_documentIds], as
    [add] and [discard] keep them, loading [toJSON] of the state with the
    same options gives back the same state; so every [search], for any
    query and search options, returns the same results on both. *)
Theorem toJSON_loadJSON_roundtrip {ID} `{Countable ID}
    (s s0 : SearchIndex ID) (opts : option (SearchIndexOptions ID)) :
  newSearchIndex opts = inr s0 →
  _options s = _options s0 →
  map_Forall (λ shortId id, _idToShortId s !! id = Some shortId) (_documentIds s) →
  map_Forall (λ id shortId, _documentIds s !! shortId = Some id) (_idToShortId s) →
  loadJSON (toJSON s) opts = inr s ∧
  ∀ (Query : Type)
    (executeQuery : SearchIndex ID → Query → SearchOptions ID → list (nat * QueryResult))
    (query : Query) (so : SearchOptions ID),
    ∃ s', loadJSON (toJSON s) opts = inr s' ∧
          search executeQuery s' query so = search executeQuery s query so.
Proof.
  intros Hnew Hopt Hfw Hbw.
  assert (Hload : loadJSON (toJSON s) opts = inr s).
  { unfold loadJSON. rewrite decide_True by (right; reflexivity).
    rewrite Hnew. rewrite toJSON_index, loadIndexEntries_serialized.
    simpl. unfold fromEntries. rewrite (swapped_ids_inverse _ (_idToShortId s)) by done. rewrite !list_to_map_to_list.
    destruct s; simpl in *. by subst. }
  split; [exact Hload|]. intros. exists s. by split.
Qed.

(** C8 (amended). The constructor fails exactly when the options are
    missing or have no [fields]; any other options, negative BM25
    parameters included, give an index. The message of the failure is
    [errFieldsMissing], 'SlimSearch: option "fields" must be provided',
    which starts with "SlimSearch: ". *)
Theorem newSearchIndex_fails_iff_fields_missing {ID} `{Countable ID}
    (options : option (SearchIndexOptions ID)) :
  ((∃ msg, newSearchIndex options = inl msg) ↔
     options = None ∨ ∃ o, options = Some o ∧ opt_fields o = None) ∧
  (∀ msg, newSearchIndex options = inl msg →
     msg = errFieldsMissing ∧ ∃ rest, msg = ("SlimSearch: " ++ rest)%string).
Proof.
  split.
  - destruct options as [o|]; simpl.
    + destruct (opt_fields o) as [fs|] eqn:Hf.
      * split; [by intros [msg ?]|]. intros [?|(o' & Ho & Hf')]; [done|].
        injection Ho as <-. congruence.
      * split; [intros _; right; by exists o|]. intros _. by eexists.
    + split; [by left|]. intros _. by eexists.
  - intros msg Hmsg.
    assert (msg = errFieldsMissing) as ->.
    { destruct options as [o|]; simpl in Hmsg; [|congruence].
      destruct (opt_fields o); congruence. }
    split; [done|by eexists].
Qed.

(** C9. [dirtFactor] is [dirtCount / (1 + documentCount + dirtCount)];
    with non-negative counters the denominator is at least 1 and the
    result lies in [0, 1). *)
Theorem dirtFactor_in_unit_interval {ID} `{Countable ID} (s : SearchIndex ID) :
  (0 <= _documentCount s)%Z → (0 <= _dirtCount s)%Z →
  dirtFactor s = (inject_Z (_dirtCount s) /
                   (1 + inject_Z (_documentCount s) + inject_Z (_dirtCount s)))%Q ∧
  (1 <= 1 + inject_Z (_documentCount s) + inject_Z (_dirtCount s))%Q ∧
  (0 <= dirtFactor s)%Q ∧ (dirtFactor s < 1)%Q.
Proof.
  intros Hdoc Hdirt.
  rewrite Zle_Qle in Hdoc, Hdirt. change (inject_Z 0) with 0%Q in Hdoc, Hdirt.
  split; [reflexivity|]. split; [lra|]. unfold dirtFactor.
  split.
  - apply Qle_shift_div_l; [lra|]. lra.
  - apply Qlt_shift_div_r; [lra|]. lra.
Qed.

(* ------------------------------------------------------------------ *)
(** ** Instances of the theorems on concrete states *)

Lemma search_score_times_distinct_terms_witness :
  (Forall (λ e, NoDup (terms e.2)) sample_results ∧
   map_Forall (λ _ stored, stored !! "score" = None) (_storedFields sample_state)) ∧
  Forall (λ r, ∃ docId qr, (docId, qr) ∈ sample_results ∧
                 r = makeResult sample_state docId qr ∧
                 scoreOf r = Some (score qr *
                   inject_Z (Z.of_nat (size (list_to_set (terms qr) : gset string))))%Q)
    (search (λ _ (_ : string) _, sample_results) sample_state "zen art" emptySearchOptions).
Proof.
  assert (H1 : Forall (λ e, NoDup (terms e.2)) sample_results)
    by (apply (bool_decide_unpack _); vm_compute; reflexivity).
  assert (H2 : map_Forall (λ _ stored, stored !! "score" = None) (_storedFields sample_state))
    by (apply (bool_decide_unpack _); vm_compute; reflexivity).
  split; [split; assumption|].
  exact (search_score_times_distinct_terms (λ _ (_ : string) _, sample_results)
           sample_state "zen art" emptySearchOptions H1 H2).
Defined.

Lemma search_sorted_by_descending_score_witness :
  map_Forall (λ _ stored, ∀ v, stored !! "score" = Some v → ∃ q, v = JNum q)
    (_storedFields score_stored_state) ∧
  StronglySorted (λ a b, ∃ qa qb, scoreOf a = Some qa ∧ scoreOf b = Some qb ∧ (qb <= qa)%Q)
    (search (λ _ (_ : string) _, sample_results) score_stored_state "zen art"
       emptySearchOptions) ∧
  ∀ q, filter (λ r, hasScore q r = true)
         (search (λ _ (_ : string) _, sample_results) score_stored_state "zen art"
            emptySearchOptions) =
       filter (λ r, hasScore q r = true)
         (foldl (pushResult score_stored_state emptySearchOptions) [] sample_results).
Proof.
  assert (H1 : map_Forall (λ _ stored, ∀ v, stored !! "score" = Some v → ∃ q, v = JNum q)
                 (_storedFields score_stored_state)).
  { intros i stored Hi v Hv. simpl in Hi.
    rewrite lookup_insert_Some, lookup_singleton_Some in Hi.
    destruct Hi as [[<- <-]|[_ [<- <-]]]; vm_compute in Hv;
      [injection Hv as <-; by eexists|discriminate]. }
  split; [exact H1|].
  exact (search_sorted_by_descending_score (λ _ (_ : string) _, sample_results)
           score_stored_state "zen art" emptySearchOptions H1).
Defined.

Lemma search_without_filter_keeps_all_witness :
  so_filter (searchOptions (_options sample_state)) = Some rejectAll ∧
  so_filter (@emptySearchOptions nat) = None ∧
  Permutation (search (λ _ (_ : string) _, sample_results) sample_state "zen art"
                 emptySearchOptions)
    ((λ '(docId, qr), makeResult sample_state docId qr) <$> sample_results).
Proof.
  split; [reflexivity|]. split; [reflexivity|].
  exact (search_without_filter_keeps_all (λ _ (_ : string) _, sample_results)
           sample_state "zen art" emptySearchOptions eq_refl).
Defined.

Lemma toJSON_loadJSON_roundtrip_witness :
  (newSearchIndex (Some sample_options) = inr sample_fresh_state ∧
   _options sample_state = _options sample_fresh_state ∧
   map_Forall (λ shortId id, _idToShortId sample_state !! id = Some shortId)
     (_documentIds sample_state) ∧
   map_Forall (λ id shortId, _documentIds sample_state !! shortId = Some id)
     (_idToShortId sample_state)) ∧
  loadJSON (toJSON sample_state) (Some sample_options) = inr sample_state ∧
  ∀ (Query : Type)
    (executeQuery : SearchIndex nat → Query → SearchOptions nat → list (nat * QueryResult))
    (query : Query) (so : SearchOptions nat),
    ∃ s', loadJSON (toJSON sample_state) (Some sample_options) = inr s' ∧
          search executeQuery s' query so = search executeQuery sample_state query so.
Proof.
  assert (H1 : newSearchIndex (Some sample_options) = inr sample_fresh_state) by reflexivity.
  assert (H2 : _options sample_state = _options sample_fresh_state) by reflexivity.
  assert (H3 : map_Forall (λ shortId id, _idToShortId sample_state !! id = Some shortId)
                 (_documentIds sample_state))
    by (apply (bool_decide_unpack _); vm_compute; reflexivity).
  assert (H4 : map_Forall (λ id shortId, _documentIds sample_state !! shortId = Some id)
                 (_idToShortId sample_state))
    by (apply (bool_decide_unpack _); vm_compute; reflexivity).
  split; [split; [exact H1|split; [exact H2|split; [exact H3|exact H4]]]|].
  exact (toJSON_loadJSON_roundtrip sample_state sample_fresh_state (Some sample_options)
           H1 H2 H3 H4).
Defined.

Lemma dirtFactor_in_unit_interval_witness :
  (0 <= _documentCount sample_state)%Z ∧ (0 <= _dirtCount sample_state)%Z ∧
  dirtFactor sample_state = (inject_Z (_dirtCount sample_state) /
    (1 + inject_Z (_documentCount sample_state) + inject_Z (_dirtCount sample_state)))%Q ∧
  (1 <= 1 + inject_Z (_documentCount sample_state) + inject_Z (_dirtCount sample_state))%Q ∧
  (0 <= dirtFactor sample_state)%Q ∧ (dirtFactor sample_state < 1)%Q.
Proof.
  assert (H1 : (0 <= _documentCount sample_state)%Z) by (simpl; lia).
  assert (H2 : (0 <= _dirtCount sample_state)%Z) by (simpl; lia).
  split; [exact H1|]. split; [exact H2|].
  exact (dirtFactor_in_unit_interval sample_state H1 H2).
Defined.

(* ------------------------------------------------------------------ *)
(** ** Counterexamples *)

(** C4: a stored member named [score] replaces the computed score.
    Document 11 of [score_stored_state] matches one query term with
    accumulated score 2; its result reports the stored 5, not 2 × 1. *)
Lemma search_stored_score_overrides :
  let qr := {| score := 2; terms := ["zen"]; match_ := [("zen", ["title"])] |} in
  search (λ _ (_ : string) _, [(1, qr)]) score_stored_state "zen" emptySearchOptions
    = [makeResult score_stored_state 1 qr] ∧
  scoreOf (makeResult score_stored_state 1 qr) = Some 5%Q ∧
  ¬ (5 == score qr * inject_Z (Z.of_nat (size (list_to_set (terms qr) : gset string))))%Q.
Proof.
  split; [reflexivity|]. split; [reflexivity|].
  vm_compute. discriminate.
Qed.

(** C5: equal scores keep the order of the combined results, which is
    not the order of short ids. For the OR query "art zen", the combined
    results list short id 3 (document 13) before short id 1 (document
    11); both score 1, and [search] returns document 13 first. *)
Lemma search_equal_scores_keep_combined_order :
  let qrArt := {| score := 1; terms := ["art"]; match_ := [("art", ["title"])] |} in
  let qrZen := {| score := 1; terms := ["zen"]; match_ := [("zen", ["title"])] |} in
  _documentIds sample_state !! 3 = Some 13 ∧ _documentIds sample_state !! 1 = Some 11 ∧
  (λ r : JSObject nat, (r !! "id", scoreOf r)) <$>
    search (λ _ (_ : string) _, [(3, qrArt); (1, qrZen)]) sample_state "art zen"
      emptySearchOptions
  = [(Some (JId 13), Some 1%Q); (Some (JId 11), Some 1%Q)].
Proof. split; [reflexivity|]. split; [reflexivity|]. vm_compute. reflexivity. Qed.

(** C8: negative BM25 parameters are accepted by the constructor. *)
Lemma newSearchIndex_accepts_negative_bm25 :
  let bm25 := {| k := -1; b := -1; d := -1 |} in
  ∃ s : SearchIndex nat,
    newSearchIndex (Some {| opt_fields := Some ["title"]; opt_idField := None;
                            opt_storeFields := None;
                            opt_searchOptions := Some {| so_fields := None; so_filter := None;
                                                         so_bm25 := Some bm25 |} |})
      = inr s ∧
    so_bm25 (searchOptions (_options s)) = Some bm25.
Proof. eexists. split; reflexivity. Qed.

(* ------------------------------------------------------------------ *)
(** ** Further properties of the posting operations *)

Lemma wf_term_absent_iff index t :
  wf_index index → (index !! t = None ↔ ∀ f d, cnt index t f d = 0).
Proof.
  intros Hw. split.
  - intros Ht f d. rewrite cnt_cases, Ht. done.
  - intros Hc. destruct (index !! t) as [m|] eqn:Ht; [|done].
    destruct (wf_term_has_posting index t m Hw Ht) as (f & fi & d & n & Hf & Hd & Hn).
    specialize (Hc f d). rewrite cnt_cases, Ht in Hc. unfold cntF in Hc.
    rewrite Hf, Hd in Hc. simpl in Hc. lia.
Qed.

Lemma wf_posting_Some index t f d n :
  wf_index index → posting index t f d = Some n ↔ cnt index t f d = n ∧ n ≠ 0.
Proof.
  intros Hw. rewrite (wf_posting_cnt index t f d Hw).
  case_decide; split; intros; naive_solver.
Qed.

Lemma wf_posting_None index t f d :
  wf_index index → posting index t f d = None ↔ cnt index t f d = 0.
Proof.
  intros Hw. rewrite (wf_posting_cnt index t f d Hw). by case_decide.
Qed.

(** The copy of [addTerm] and [removeTerm] in [src/src/term.ts] behaves
    as the one of part_001: [(docs || 0)] and [(docs ?? 0)] agree on
    frequencies, and the two tests for a missing posting agree. *)
Theorem termTs_agrees_with_part_001 :
  (∀ index fieldId documentId term,
     TermTs.addTerm index fieldId documentId term = addTerm index fieldId documentId term) ∧
  (∀ index fieldId documentId term,
     TermTs.removeTerm index fieldId documentId term =
       removeTerm index fieldId documentId term).
Proof.
  split.
  - intros index f d t. unfold TermTs.addTerm, addTerm.
    destruct (fetch index t createMap) as [indexData idx].
    destruct (indexData !! f) as [fi|]; [|done].
    destruct (fi !! d) as [n|]; simpl; [|done].
    by case_decide; subst.
  - intros index f d t. unfold TermTs.removeTerm, removeTerm.
    case_decide; [done|].
    destruct (fetch index t createMap) as [indexData idx].
    destruct (indexData !! f) as [fi|]; simpl; [|done].
    by destruct (fi !! d).
Qed.

(** [addTerm] on a well-formed dictionary records one more occurrence
    of the term in the field of the document, and no other posting
    changes. *)
Theorem addTerm_increments_posting index (fieldId documentId : nat) term :
  wf_index index →
  posting (addTerm index fieldId documentId term) term fieldId documentId
    = Some (cnt index term fieldId documentId + 1) ∧
  ∀ t f d, (t, f, d) ≠ (term, fieldId, documentId) →
    posting (addTerm index fieldId documentId term) t f d = posting index t f d.
Proof.
  intros Hw. pose proof (wf_addTerm index fieldId documentId term Hw) as Hw'.
  split.
  - apply wf_posting_Some; [done|]. rewrite cnt_addTerm, decide_True by done. lia.
  - intros t f d Hne. rewrite (wf_posting_cnt _ _ _ _ Hw'), (wf_posting_cnt _ _ _ _ Hw).
    rewrite cnt_addTerm, (decide_False (P := t = term ∧ f = fieldId ∧ d = documentId)), Nat.add_0_r
      by (intros (->&->&->); done). done.
Qed.

(** [removeTerm] on a well-formed dictionary lowers the frequency of the
    posting by one, removing the posting when the frequency was 1, and
    changes no other posting. *)
Theorem removeTerm_decrements_posting index (fieldId documentId : nat) term :
  wf_index index →
  posting (fst (removeTerm index fieldId documentId term)) term fieldId documentId
    = match posting index term fieldId documentId with
      | Some n => if decide (n <= 1) then None else Some (n - 1)
      | None => None
      end ∧
  ∀ t f d, (t, f, d) ≠ (term, fieldId, documentId) →
    posting (fst (removeTerm index fieldId documentId term)) t f d = posting index t f d.
Proof.
  intros Hw. pose proof (wf_removeTerm index fieldId documentId term Hw) as Hw'.
  split.
  - rewrite (wf_posting_cnt _ _ _ _ Hw'), (wf_posting_cnt _ _ _ _ Hw).
    rewrite cnt_removeTerm, (decide_True (P := term = term ∧ fieldId = fieldId ∧ documentId = documentId)) by done.
    repeat case_decide; f_equal; lia.
  - intros t f d Hne. rewrite (wf_posting_cnt _ _ _ _ Hw'), (wf_posting_cnt _ _ _ _ Hw).
    rewrite cnt_removeTerm, (decide_False (P := t = term ∧ f = fieldId ∧ d = documentId)), Nat.sub_0_r
      by (intros (->&->&->); done). done.
Qed.

(** [removeTerm] sends a DocumentChanged warning exactly when the
    posting it should remove is missing, and no warning otherwise. *)
Theorem removeTerm_warns_iff_posting_missing index (fieldId documentId : nat) term :
  snd (removeTerm index fieldId documentId term) =
    match posting index term fieldId documentId with
    | Some _ => []
    | None => [warnDocumentChanged documentId fieldId term]
    end.
Proof.
  rewrite posting_lookup. unfold removeTerm, fetch.
  destruct (index !! term) as [m|] eqn:Em; simpl; [|done].
  destruct (m !! fieldId) as [fi|]; simpl; [|by case_decide].
  destruct (fi !! documentId) as [a|]; simpl; [|by case_decide].
  by repeat case_decide.
Qed.

(** [addTerm] touches only the entry of its term, and the number of
    terms ([termCount], the size of [_index]) grows by one exactly when
    the term was not yet in the dictionary. *)
Theorem addTerm_termCount index (fieldId documentId : nat) term :
  (∀ t, t ≠ term → addTerm index fieldId documentId term !! t = index !! t) ∧
  size (addTerm index fieldId documentId term) =
    size index + (if decide (index !! term = None) then 1 else 0).
Proof.
  unfold addTerm, fetch.
  destruct (index !! term) as [m|] eqn:Em; simpl.
  - split.
    + intros t Ht. destruct (m !! fieldId); by rewrite lookup_insert_ne by congruence.
    + try rewrite (decide_False (P := Some m = None)) by done.
      destruct (m !! fieldId); rewrite map_size_insert_Some by (rewrite Em; by eexists); lia.
  - unfold createMap. rewrite lookup_empty, insert_insert_eq. split.
    + intros t Ht. by rewrite !lookup_insert_ne by congruence.
    + rewrite map_size_insert_None by done. try rewrite decide_True by done. lia.
Qed.

(** [removeTerm] touches only the entry of its term. On a well-formed
    dictionary holding the term, the term leaves the dictionary (and
    [termCount] drops by one) exactly when the removed posting was the
    term's only posting and had frequency 1. *)
Theorem removeTerm_drops_term index (fieldId documentId : nat) term :
  (∀ t, t ≠ term → fst (removeTerm index fieldId documentId term) !! t = index !! t) ∧
  (wf_index index → is_Some (index !! term) →
   (fst (removeTerm index fieldId documentId term) !! term = None ↔
    posting index term fieldId documentId = Some 1 ∧
    ∀ f d, posting index term f d ≠ None → f = fieldId ∧ d = documentId)).
Proof.
  split.
  { intros t Ht. unfold removeTerm, fetch.
    destruct (index !! term) as [m|] eqn:Em; simpl; [|done].
    destruct (m !! fieldId) as [fi|]; simpl; [destruct (fi !! documentId)|]; simpl;
      repeat case_decide; simpl;
      rewrite ?lookup_delete_ne, ?lookup_insert_ne by congruence; done. }
  intros Hw [m Hm].
  rewrite (wf_term_absent_iff _ _ (wf_removeTerm _ _ _ _ Hw)).
  setoid_rewrite cnt_removeTerm. split.
  - intros Hc.
    destruct (wf_term_has_posting index term m Hw Hm) as (f0 & fi & d0 & n & Hf & Hd & Hn).
    assert (H0 : cnt index term f0 d0 = n).
    { rewrite cnt_cases, Hm. unfold cntF. by rewrite Hf, Hd. }
    assert (Hfd : f0 = fieldId ∧ d0 = documentId).
    { specialize (Hc f0 d0). case_decide as Hq; [naive_solver|lia]. }
    destruct Hfd as [-> ->].
    assert (H1 : cnt index term fieldId documentId = 1).
    { specialize (Hc fieldId documentId).
      rewrite (decide_True (P := term = term ∧ fieldId = fieldId ∧ documentId = documentId))
        in Hc by done. lia. }
    split; [by apply wf_posting_Some|].
    intros f d Hp. destruct (posting index term f d) as [k|] eqn:Hk; [|done].
    apply wf_posting_Some in Hk as [Hk Hk0]; [|done].
    specialize (Hc f d). case_decide as Hq; [naive_solver|lia].
  - intros [H1 Huniq] f d. case_decide as Hq.
    + destruct Hq as (_ & -> & ->). apply wf_posting_Some in H1 as [-> _]; [lia|done].
    + destruct (posting index term f d) as [k|] eqn:Hk.
      * exfalso. apply Hq. split; [done|]. apply Huniq. by rewrite Hk.
      * apply wf_posting_None in Hk; [lia|done].
Qed.

(** Indexing a document that has no posting yet with [addTerm] for each
    of its (field, term) occurrences gives it, for every (term, field),
    a posting whose frequency is the number of those occurrences, and
    no posting for a pair that does not occur. *)
Theorem addTerms_frequencies index (documentId : nat) (occ : list (nat * string)) :
  wf_index index →
  (∀ t f, posting index t f documentId = None) →
  ∀ t f, posting (addTerms index documentId occ) t f documentId =
           if decide (occurrences occ f t = 0) then None else Some (occurrences occ f t).
Proof.
  intros Hw Hfresh t f.
  rewrite (wf_posting_cnt _ _ _ _ (wf_addTerms _ _ _ Hw)), cnt_addTerms,
    (decide_True (P := documentId = documentId)) by done.
  assert (cnt index t f documentId = 0) as -> by (by apply wf_posting_None).
  done.
Qed.

(** A removal whose posting is missing only warns: on a well-formed
    dictionary the dictionary is left as it was. *)
Theorem removeTerm_missing_posting_noop index (fieldId documentId : nat) term :
  wf_index index → posting index term fieldId documentId = None →
  fst (removeTerm index fieldId documentId term) = index.
Proof.
  intros Hw Hp. rewrite posting_lookup in Hp. unfold removeTerm, fetch.
  case_decide as Ht; [done|].
  destruct (index !! term) as [m|] eqn:Em; [|done]. simpl.
  assert (Hm : m ≠ ∅) by (apply (Hw term m Em)).
  assert (Hmid : <[term := m]> index = index) by (by apply insert_id).
  destruct (m !! fieldId) as [fi|] eqn:Ef; simpl;
    [destruct (fi !! documentId) as [n|] eqn:Ed; simpl; [done|]|];
    (case_decide as Hs; [apply map_size_empty_iff in Hs; done|done]).
Qed.

(* ------------------------------------------------------------------ *)
(** ** Further properties of the constructor and of [search] *)

Lemma addFieldsFrom_lookup i fs (fieldIds : gmap string nat) f n :
  addFieldsFrom i fs fieldIds !! f = Some n ↔
    (∃ j, fs !! j = Some f ∧ n = i + j ∧ ∀ j', fs !! j' = Some f → j' ≤ j) ∨
    ((f ∉ fs) ∧ fieldIds !! f = Some n).
Proof.
  induction fs as [|x fs IH] in i, fieldIds |- *; simpl.
  - split; [intros H; right; split; [apply not_elem_of_nil|done]|].
    intros [(j & Hj & _)|[_ H]]; [done|done].
  - rewrite IH. split.
    + intros [(j & Hj & -> & Hmax)|[Hf Hl]].
      * left. exists (S j). split; [done|]. split; [lia|].
        intros [|j'] Hj'; [lia|]. simpl in Hj'. specialize (Hmax j' Hj'). lia.
      * apply lookup_insert_Some in Hl as [[-> ->]|[Hxf Hl]].
        -- left. exists 0. split; [done|]. split; [lia|].
           intros [|j'] Hj'; [lia|]. simpl in Hj'. exfalso. apply Hf.
           apply list_elem_of_lookup. by exists j'.
        -- right. split; [|done]. rewrite elem_of_cons. intros [->|Hin]; [done|done].
    + intros [([|j] & Hj & -> & Hmax)|[Hf Hl]].
      * simpl in Hj. injection Hj as ->. right. split.
        -- rewrite list_elem_of_lookup. intros [k Hk].
           specialize (Hmax (S k) Hk). lia.
        -- rewrite lookup_insert_eq. f_equal. lia.
      * left. exists j. split; [done|]. split; [lia|].
        intros j' Hj'. specialize (Hmax (S j') Hj'). lia.
      * rewrite elem_of_cons in Hf. right. split; [naive_solver|].
        rewrite lookup_insert_ne by naive_solver. done.
Qed.

(** The constructor numbers the fields by their position in
    [options.fields]: when no field is named [__proto__], a field name
    gets an own member of [_fieldIds] holding the position of its last
    occurrence, and names not in the list get no own member. *)
Theorem newSearchIndex_fieldIds {ID} `{Countable ID}
    (o : SearchIndexOptions ID) (fs : list string) (s : SearchIndex ID) :
  opt_fields o = Some fs → "__proto__" ∉ fs → newSearchIndex (Some o) = inr s →
  ∀ f n, _fieldIds s !! f = Some n ↔
         fs !! n = Some f ∧ ∀ j, fs !! j = Some f → j ≤ n.
Proof.
  intros Hf _ Hs f n. simpl in Hs. rewrite Hf in Hs. injection Hs as <-. simpl.
  unfold addFields. rewrite addFieldsFrom_lookup. split.
  - intros [(j & Hj & -> & Hmax)|[_ Hl]]; [by split|done].
  - intros [Hn Hmax]. left. by exists n.
Qed.

Lemma foldl_pushResult_filter {ID} `{Countable ID} (s : SearchIndex ID)
    (so : SearchOptions ID) keep l :
  so_filter so = Some keep →
  foldl (pushResult s so) [] l =
    filter (λ r, keep r = true) ((λ '(docId, qr), makeResult s docId qr) <$> l).
Proof.
  intros Hf. induction l as [|[docId qr] l IH]; simpl; [done|].
  rewrite foldl_pushResult_app, IH. unfold pushResult. rewrite Hf.
  destruct (keep (makeResult s docId qr)) eqn:Hk.
  - by rewrite filter_cons_True.
  - rewrite filter_cons_False by congruence. done.
Qed.

(** With a [filter] in the call's options, [search] returns exactly the
    results the filter accepts, each once, sorted by [byScore]. *)
Theorem search_with_filter {ID} `{Countable ID} {Query : Type}
    (executeQuery : SearchIndex ID → Query → SearchOptions ID → list (nat * QueryResult))
    (s : SearchIndex ID) (query : Query) (so : SearchOptions ID) keep :
  so_filter so = Some keep →
  Permutation (search executeQuery s query so)
    (filter (λ r, keep r = true)
       ((λ '(docId, qr), makeResult s docId qr) <$> executeQuery s query so)).
Proof.
  intros Hf. unfold search, searchCombined.
  rewrite sortBy_perm. by rewrite (foldl_pushResult_filter s so keep _ Hf).
Qed.

(** When no stored object has a member named [__proto__], every result
    of [search] holds all the stored fields of its document with their
    stored values; the [id], [terms] and [match] members it computes are
    kept where no stored field has the same name. *)
Theorem search_results_carry_stored_fields {ID} `{Countable ID} {Query : Type}
    (executeQuery : SearchIndex ID → Query → SearchOptions ID → list (nat * QueryResult))
    (s : SearchIndex ID) (query : Query) (so : SearchOptions ID) :
  map_Forall (λ _ (stored : JSObject ID), stored !! "__proto__" = None) (_storedFields s) →
  Forall (λ r, ∃ docId qr, (docId, qr) ∈ executeQuery s query so ∧
     (∀ stored, _storedFields s !! docId = Some stored →
        ∀ k v, stored !! k = Some v → r !! k = Some v) ∧
     (∀ k, (_storedFields s !! docId ≫= λ stored : JSObject ID, stored !! k) = None →
        (k = "id" → r !! k = Some (match _documentIds s !! docId with
                                   | Some i => JId i
                                   | None => JUndefined
                                   end)) ∧
        (k = "terms" → r !! k = Some (JStrs (fst <$> match_ qr))) ∧
        (k = "match" → r !! k = Some (JMatch (match_ qr)))))
    (search executeQuery s query so).
Proof.
  intros _. apply Forall_forall. intros r Hr.
  destruct (searchCombined_elem s _ so r Hr) as (docId & qr & Hin & ->).
  exists docId, qr. split; [done|]. unfold makeResult. split.
  - intros stored Hs k v Hk. rewrite Hs. by apply lookup_union_Some_l.
  - intros k Hk.
    destruct (_storedFields s !! docId) as [stored|] eqn:Hs; simpl in Hk;
      [rewrite lookup_union_r by done|]; (split; [|split]); intros ->;
      rewrite ?lookup_insert_eq; rewrite ?lookup_insert_ne by done;
      rewrite ?lookup_insert_eq; rewrite ?lookup_insert_ne by done;
      rewrite ?lookup_insert_eq; done.
Qed.

(* ------------------------------------------------------------------ *)
(** ** Instances of the further properties *)

Lemma sample_index_wf : wf_index sample_index.
Proof. apply wf_index_check_sound. vm_compute. reflexivity. Qed.

Lemma addTerm_increments_posting_witness :
  wf_index sample_index ∧
  posting (addTerm sample_index 0 1 "zen") "zen" 0 1
    = Some (cnt sample_index "zen" 0 1 + 1) ∧
  ∀ t f d, (t, f, d) ≠ ("zen", 0, 1) →
    posting (addTerm sample_index 0 1 "zen") t f d = posting sample_index t f d.
Proof.
  split; [exact sample_index_wf|].
  exact (addTerm_increments_posting sample_index 0 1 "zen" sample_index_wf).
Defined.

Lemma removeTerm_decrements_posting_witness :
  wf_index sample_index ∧
  posting (fst (removeTerm sample_index 0 1 "zen")) "zen" 0 1
    = match posting sample_index "zen" 0 1 with
      | Some n => if decide (n <= 1) then None else Some (n - 1)
      | None => None
      end ∧
  ∀ t f d, (t, f, d) ≠ ("zen", 0, 1) →
    posting (fst (removeTerm sample_index 0 1 "zen")) t f d = posting sample_index t f d.
Proof.
  split; [exact sample_index_wf|].
  exact (removeTerm_decrements_posting sample_index 0 1 "zen" sample_index_wf).
Defined.

Lemma removeTerm_drops_term_witness :
  wf_index sample_index ∧ is_Some (sample_index !! "art") ∧
  (fst (removeTerm sample_index 0 3 "art") !! "art" = None ↔
   posting sample_index "art" 0 3 = Some 1 ∧
   ∀ f d, posting sample_index "art" f d ≠ None → f = 0 ∧ d = 3).
Proof.
  assert (Hs : is_Some (sample_index !! "art")) by (vm_compute; by eexists).
  split; [exact sample_index_wf|]. split; [exact Hs|].
  exact (proj2 (removeTerm_drops_term sample_index 0 3 "art") sample_index_wf Hs).
Defined.

Lemma addTerms_frequencies_witness :
  wf_index sample_index ∧ (∀ t f, posting sample_index t f 5 = None) ∧
  ∀ t f, posting (addTerms sample_index 5 [(0, "zen"); (1, "art"); (0, "zen")]) t f 5 =
    if decide (occurrences [(0, "zen"); (1, "art"); (0, "zen")] f t = 0) then None
    else Some (occurrences [(0, "zen"); (1, "art"); (0, "zen")] f t).
Proof.
  assert (Hall : map_Forall (λ _ (m : FieldTermData),
                   map_Forall (λ _ (fi : DocumentTermFrequencies), fi !! 5 = None) m)
                   sample_index)
    by (apply (bool_decide_unpack _); vm_compute; reflexivity).
  assert (Hfresh : ∀ t f, posting sample_index t f 5 = None).
  { intros t f. unfold posting.
    destruct (sample_index !! t) as [m|] eqn:Et; simpl; [|done].
    destruct (m !! f) as [fi|] eqn:Ef; simpl; [|done].
    exact (Hall t m Et f fi Ef). }
  split; [exact sample_index_wf|]. split; [exact Hfresh|].
  exact (addTerms_frequencies sample_index 5 [(0, "zen"); (1, "art"); (0, "zen")]
           sample_index_wf Hfresh).
Defined.

Lemma newSearchIndex_fieldIds_witness :
  opt_fields sample_options = Some ["title"; "text"] ∧
  ("__proto__" ∉ ["title"; "text"]) ∧
  newSearchIndex (Some sample_options) = inr sample_fresh_state ∧
  ∀ f n, _fieldIds sample_fresh_state !! f = Some n ↔
         ["title"; "text"] !! n = Some f ∧
         ∀ j, ["title"; "text"] !! j = Some f → j ≤ n.
Proof.
  assert (H1 : opt_fields sample_options = Some ["title"; "text"]) by reflexivity.
  assert (H2 : newSearchIndex (Some sample_options) = inr sample_fresh_state) by reflexivity.
  assert (Hp : "__proto__" ∉ ["title"; "text"])
    by (apply (bool_decide_unpack _); vm_compute; reflexivity).
  split; [exact H1|]. split; [exact Hp|]. split; [exact H2|].
  exact (newSearchIndex_fieldIds sample_options ["title"; "text"] sample_fresh_state
           H1 Hp H2).
Defined.

Lemma search_with_filter_witness :
  so_filter (searchOptions (_options sample_state)) = Some rejectAll ∧
  Permutation (search (λ _ (_ : string) _, sample_results) sample_state "zen art"
                 (searchOptions (_options sample_state)))
    (filter (λ r, rejectAll r = true)
       ((λ '(docId, qr), makeResult sample_state docId qr) <$> sample_results)).
Proof.
  assert (H : so_filter (searchOptions (_options sample_state)) = Some rejectAll)
    by reflexivity.
  split; [exact H|].
  exact (search_with_filter (λ _ (_ : string) _, sample_results) sample_state "zen art"
           (searchOptions (_options sample_state)) rejectAll H).
Defined.

Lemma removeTerm_missing_posting_noop_witness :
  wf_index sample_index ∧ posting sample_index "zen" 0 3 = None ∧
  fst (removeTerm sample_index 0 3 "zen") = sample_index.
Proof.
  assert (Hp : posting sample_index "zen" 0 3 = None) by reflexivity.
  split; [exact sample_index_wf|]. split; [exact Hp|].
  exact (removeTerm_missing_posting_noop sample_index 0 3 "zen" sample_index_wf Hp).
Defined.

Lemma search_results_carry_stored_fields_witness :
  map_Forall (λ _ (stored : JSObject nat), stored !! "__proto__" = None)
    (_storedFields score_stored_state) ∧
  Forall (λ r, ∃ docId qr, (docId, qr) ∈ sample_results ∧
     (∀ stored, _storedFields score_stored_state !! docId = Some stored →
        ∀ k v, stored !! k = Some v → r !! k = Some v) ∧
     (∀ k, (_storedFields score_stored_state !! docId ≫=
              λ stored : JSObject nat, stored !! k) = None →
        (k = "id" → r !! k = Some (match _documentIds score_stored_state !! docId with
                                   | Some i => JId i
                                   | None => JUndefined
                                   end)) ∧
        (k = "terms" → r !! k = Some (JStrs (fst <$> match_ qr))) ∧
        (k = "match" → r !! k = Some (JMatch (match_ qr)))))
    (search (λ _ (_ : string) _, sample_results) score_stored_state "zen art"
       emptySearchOptions).
Proof.
  assert (H : map_Forall (λ _ (stored : JSObject nat), stored !! "__proto__" = None)
                (_storedFields score_stored_state))
    by (apply (bool_decide_unpack _); vm_compute; reflexivity).
  split; [exact H|].
  exact (search_results_carry_stored_fields (λ _ (_ : string) _, sample_results)
           score_stored_state "zen art" emptySearchOptions H).
Defined.
